(** * wanderer-sde: the transformation and derivation pipeline

    A shallow embedding of the Go packages [internal/transformer] and
    [internal/models] and of the parsers of [internal/parser], followed by
    the properties the specification states about them and by further
    properties of the code.

    Conventions of the embedding
    - [float64] is Rocq's primitive binary64 float ([PrimFloat.float]);
      [+ - * /] and the comparisons are the IEEE 754 operations Go uses.
    - [int64] and [int] are [Z]; the code only compares and copies them.
    - [*int64] is [option Z] ([nil] is [None]).
    - a slice is a [list]; a function that mutates a slice in place returns
      the new contents of that slice.
    - a Go [map] is a [gmap]; a map used as a set is a [gset]. *)

From Stdlib Require Import ZArith Floats Sorting.Sorted Permutation Lia.
From stdpp Require Import base list gmap strings pretty.

Set Warnings "-inexact-float".
Local Open Scope Z_scope.

(** ** Go's standard library, as far as the code uses it *)

Module math.

(** Conversion of an integer below 2^63 to [float64]; it is exact below
    2^53, which covers every integer part met below. *)
Definition of_int (z : Z) : float := PrimFloat.of_uint63 (Uint63.of_Z z).

(** Sign, integer part of the magnitude and the remainder of a finite
    float whose exponent is negative: |x| = m * 2^e with e < 0. *)
Definition int_part (m : positive) (e : Z) : Z := Z.shiftr (Zpos m) (- e).
Definition frac_part (m : positive) (e : Z) : Z :=
  Zpos m - Z.shiftl (int_part m e) (- e).

(** [math.Floor]: the greatest integer value less than or equal to [x];
    [Floor(±0) = ±0], [Floor(±Inf) = ±Inf], [Floor(NaN) = NaN]. *)
Definition Floor (x : float) : float :=
  match Prim2SF x with
  | S754_finite s m e =>
      if 0 <=? e then x
      else
        let d := int_part m e in
        let up := if frac_part m e =? 0 then d else d + 1 in
        if s then PrimFloat.opp (of_int up) else of_int d
  | _ => x
  end.

(** [math.Ceil] is implemented in Go as [-Floor(-x)]. *)
Definition Ceil (x : float) : float := (- Floor (- x))%float.

(** [math.Round]: the nearest integer, halves away from zero; the sign of
    the argument is kept ([Round(-0.3) = -0]). *)
Definition Round (x : float) : float :=
  match Prim2SF x with
  | S754_finite s m e =>
      if 0 <=? e then x
      else
        let d := int_part m e in
        let t := if Z.shiftl 1 (- e) <=? 2 * frac_part m e then d + 1 else d in
        if s then PrimFloat.opp (of_int t) else of_int t
  | _ => x
  end.

End math.

(** ** internal/transformer/security.go *)

(** [TruncateToTwoDigits] truncates a float to 2 decimal places. *)
Definition TruncateToTwoDigits (value : float) : float :=
  (math.Floor (value * 100) / 100)%float.

(** [GetTrueSecurity] calculates the display security status. *)
Definition GetTrueSecurity (security : float) : float :=
  if ((0.0 <? security) && (security <? 0.05))%float then
    (math.Ceil (security * 10) / 10)%float
  else
    let truncated := TruncateToTwoDigits security in
    let floor := (math.Floor (truncated * 10) / 10)%float in
    let diff := (math.Round ((truncated - floor) * 100) / 100)%float in
    if (diff <? 0.05)%float then floor
    else (math.Ceil (truncated * 10) / 10)%float.

(** [RoundSecurity] rounds security to one decimal place for display. *)
Definition RoundSecurity (security : float) : float :=
  (math.Round (security * 10) / 10)%float.


(** [sort.Slice(x, less)]: the slice is rearranged so that no element is
    [less] than its predecessor.  Go does not promise a stable sort; the
    properties below use only that the result is a sorted rearrangement,
    which an insertion sort provides. *)
Module sort.

Section Slice.
Context {A : Type} (less : A → A → bool).

Fixpoint insert (x : A) (l : list A) : list A :=
  match l with
  | [] => [x]
  | y :: l' => if less x y then x :: l else y :: insert x l'
  end.

Fixpoint Slice (l : list A) : list A :=
  match l with
  | [] => []
  | x :: l' => insert x (Slice l')
  end.
End Slice.

End sort.

(** [fmt]'s [%d] verb and [strconv.FormatInt(v, 10)]: decimal digits with a
    leading minus sign for negative numbers. *)
Module strconv.
Definition FormatInt (v : Z) : string := pretty v.
End strconv.

(** An [error] value is represented by its message. *)
Inductive result (A : Type) : Type :=
  | Ok (a : A)
  | Err (msg : string).
Arguments Ok {A} a.
Arguments Err {A} msg.

(** ** internal/models *)

Module SolarSystem.
Record t := mk {
  RegionID : Z;
  ConstellationID : Z;
  SolarSystemID : Z;
  SolarSystemName : string;
  FactionID : option Z;
  SunTypeID : option Z;
  X : float; Y : float; Z : float;
  XMin : float; XMax : float;
  YMin : float; YMax : float;
  ZMin : float; ZMax : float;
  Luminosity : float;
  Border : bool; Fringe : bool; Corridor : bool; Hub : bool;
  International : bool; Regional : bool;
  Constellation : string;
  Security : float;
  Radius : float;
  SecurityClass : string
}.

(** [s.Security = v] *)
Definition set_Security (v : float) (s : t) : t :=
  mk (RegionID s) (ConstellationID s) (SolarSystemID s) (SolarSystemName s)
     (FactionID s) (SunTypeID s) (X s) (Y s) (Z s)
     (XMin s) (XMax s) (YMin s) (YMax s) (ZMin s) (ZMax s)
     (Luminosity s) (Border s) (Fringe s) (Corridor s) (Hub s)
     (International s) (Regional s) (Constellation s) v (Radius s)
     (SecurityClass s).

(** [s.FactionID = v] *)
Definition set_FactionID (v : option BinNums.Z) (s : t) : t :=
  mk (RegionID s) (ConstellationID s) (SolarSystemID s) (SolarSystemName s)
     v (SunTypeID s) (X s) (Y s) (Z s)
     (XMin s) (XMax s) (YMin s) (YMax s) (ZMin s) (ZMax s)
     (Luminosity s) (Border s) (Fringe s) (Corridor s) (Hub s)
     (International s) (Regional s) (Constellation s) (Security s)
     (Radius s) (SecurityClass s).
End SolarSystem.

(** The six bounding-box fields that the bounds functions assign. *)
Record Bounds := mkBounds {
  minX : float; maxX : float;
  minY : float; maxY : float;
  minZ : float; maxZ : float
}.

Module Region.
Record t := mk {
  RegionID : Z;
  RegionName : string;
  FactionID : option Z;
  Nebula : Z;
  X : float; Y : float; Z : float;
  XMin : float; XMax : float;
  YMin : float; YMax : float;
  ZMin : float; ZMax : float;
  Radius : float
}.

(** The assignments [r.XMin = minX; r.XMax = maxX; ...; r.ZMax = maxZ]. *)
Definition set_bounds (b : Bounds) (r : t) : t :=
  mk (RegionID r) (RegionName r) (FactionID r) (Nebula r)
     (X r) (Y r) (Z r)
     (minX b) (maxX b) (minY b) (maxY b) (minZ b) (maxZ b) (Radius r).

Definition bounds (r : t) : Bounds :=
  mkBounds (XMin r) (XMax r) (YMin r) (YMax r) (ZMin r) (ZMax r).
End Region.

Module Constellation.
Record t := mk {
  RegionID : Z;
  ConstellationID : Z;
  ConstellationName : string;
  FactionID : option Z;
  X : float; Y : float; Z : float;
  XMin : float; XMax : float;
  YMin : float; YMax : float;
  ZMin : float; ZMax : float;
  Radius : float
}.

Definition set_bounds (b : Bounds) (c : t) : t :=
  mk (RegionID c) (ConstellationID c) (ConstellationName c) (FactionID c)
     (X c) (Y c) (Z c)
     (minX b) (maxX b) (minY b) (maxY b) (minZ b) (maxZ b) (Radius c).

Definition bounds (c : t) : Bounds :=
  mkBounds (XMin c) (XMax c) (YMin c) (YMax c) (ZMin c) (ZMax c).
End Constellation.

Module WormholeClassLocation.
Record t := mk {
  LocationID : Z;
  WormholeClassID : Z
}.
End WormholeClassLocation.

Module InvType.
Record t := mk {
  TypeID : Z;
  GroupID : Z;
  TypeName : string;
  Description : string;
  Mass : float;
  Volume : float;
  Capacity : float;
  PortionSize : Z;
  RaceID : option Z;
  BasePrice : float;
  Published : bool;
  MarketGroupID : option Z;
  IconID : option Z;
  SoundID : option Z;
  GraphicID : option Z
}.
End InvType.

Module InvGroup.
Record t := mk {
  GroupID : Z;
  CategoryID : Z;
  GroupName : string;
  IconID : option Z;
  UseBasePrice : bool;
  Anchored : bool;
  Anchorable : bool;
  FittableNonSingleton : bool;
  Published : bool
}.
End InvGroup.

Module SystemJump.
Record t := mk {
  FromRegionID : Z;
  FromConstellationID : Z;
  FromSolarSystemID : Z;
  ToSolarSystemID : Z;
  ToConstellationID : Z;
  ToRegionID : Z
}.

(** The pair of endpoints, the key of a jump. *)
Definition endpoints (j : t) : Z * Z :=
  (FromSolarSystemID j, ToSolarSystemID j).
End SystemJump.

(** The raw SDE records of types and groups that [transformTypes] and
    [transformGroups] read. *)
Module SDEType.
Record t := mk {
  GroupID : Z;
  Name : gmap string string;
  Description : gmap string string;
  Mass : float;
  Volume : float;
  Capacity : float;
  PortionSize : Z;
  RaceID : Z;
  BasePrice : float;
  Published : bool;
  MarketGroupID : Z;
  IconID : Z;
  SoundID : Z;
  GraphicID : Z
}.
End SDEType.

Module SDEGroup.
Record t := mk {
  CategoryID : Z;
  Name : gmap string string;
  IconID : Z;
  UseBasePrice : bool;
  Anchored : bool;
  Anchorable : bool;
  FittableNonSingleton : bool;
  Published : bool
}.
End SDEGroup.

(** [UniverseData] holds all parsed universe data. *)
Record UniverseData := mkUniverseData {
  Regions : list Region.t;
  Constellations : list Constellation.t;
  SolarSystems : list SolarSystem.t
}.

(** [ConvertedData] holds all data ready for output.  [Universe] is a
    pointer in Go; [Transform] always allocates it, and the record holds
    the value it points to. *)
Record ConvertedData := mkConvertedData {
  Universe : UniverseData;
  InvTypes : list InvType.t;
  InvGroups : list InvGroup.t;
  WormholeClasses : list WormholeClassLocation.t;
  SystemJumps : list SystemJump.t
}.

(** [ValidationResult] holds the results of data validation. *)
Module ValidationResult.
Record t := mk {
  SolarSystems : Z;
  Regions : Z;
  Constellations : Z;
  InvTypes : Z;
  InvGroups : Z;
  SystemJumps : Z;
  WormholeClasses : Z;
  Errors : list string;
  Warnings : list string
}.

(** [IsValid] returns true if validation found no errors. *)
Definition IsValid (v : t) : bool := bool_decide (length (Errors v) = 0%nat).
End ValidationResult.

(** A map lookup that yields the zero value for a missing key, as indexing
    a Go map does. *)
Definition index_string (m : gmap string string) (k : string) : string :=
  default "" (m !! k).

(** [Int64Ptr] returns a pointer to an int64 value, nil if the value is 0. *)
Definition Int64Ptr (v : Z) : option Z :=
  if decide (v = 0) then None else Some v.

(** [Int64PtrAlways] returns a pointer to an int64 value, even if 0. *)
Definition Int64PtrAlways (v : Z) : option Z := Some v.

(** [FormatNullableInt64] formats an optional int64 for CSV output. *)
Definition FormatNullableInt64 (v : option Z) : string :=
  match v with
  | None => "None"
  | Some x => strconv.FormatInt x
  end.

(** [FormatBool] formats a boolean for CSV output. *)
Definition FormatBool (v : bool) : string := if v then "1" else "0".

Module WormholeClassLocation_methods.
(** Method [ToCSVRow] of [WormholeClassLocation]. *)
Definition ToCSVRow (w : WormholeClassLocation.t) : list string :=
  [ strconv.FormatInt (WormholeClassLocation.LocationID w);
    strconv.FormatInt (WormholeClassLocation.WormholeClassID w) ].
End WormholeClassLocation_methods.

Module InvGroup_methods.
(** Method [ToCSVRow] of [InvGroup]. *)
Definition ToCSVRow (g : InvGroup.t) : list string :=
  [ strconv.FormatInt (InvGroup.GroupID g);
    strconv.FormatInt (InvGroup.CategoryID g);
    InvGroup.GroupName g;
    FormatNullableInt64 (InvGroup.IconID g);
    FormatBool (InvGroup.UseBasePrice g);
    FormatBool (InvGroup.Anchored g);
    FormatBool (InvGroup.Anchorable g);
    FormatBool (InvGroup.FittableNonSingleton g);
    FormatBool (InvGroup.Published g) ].
End InvGroup_methods.

Module SystemJump_methods.
(** Method [ToCSVRow] of [SystemJump]. *)
Definition ToCSVRow (j : SystemJump.t) : list string :=
  [ strconv.FormatInt (SystemJump.FromRegionID j);
    strconv.FormatInt (SystemJump.FromConstellationID j);
    strconv.FormatInt (SystemJump.FromSolarSystemID j);
    strconv.FormatInt (SystemJump.ToSolarSystemID j);
    strconv.FormatInt (SystemJump.ToConstellationID j);
    strconv.FormatInt (SystemJump.ToRegionID j) ].
End SystemJump_methods.

(** ** internal/transformer/bounds.go *)

(** The map from a parent ID to its systems, built by
    [m[key] = append(m[key], sys)] over the systems in order. *)
Definition systems_by (key : SolarSystem.t → Z) (systems : list SolarSystem.t)
    : gmap Z (list SolarSystem.t) :=
  foldl (λ m sys, <[key sys := default [] (m !! key sys) ++ [sys]]> m)
        ∅ systems.

(** [minX, maxX := sysList[0].X, sysList[0].X] and so on. *)
Definition bounds_init (s : SolarSystem.t) : Bounds :=
  mkBounds (SolarSystem.X s) (SolarSystem.X s)
           (SolarSystem.Y s) (SolarSystem.Y s)
           (SolarSystem.Z s) (SolarSystem.Z s).

(** The body of the loop over [sysList]: six guarded assignments. *)
Definition bounds_step (b : Bounds) (sys : SolarSystem.t) : Bounds :=
  mkBounds
    (if (SolarSystem.X sys <? minX b)%float then SolarSystem.X sys else minX b)
    (if (maxX b <? SolarSystem.X sys)%float then SolarSystem.X sys else maxX b)
    (if (SolarSystem.Y sys <? minY b)%float then SolarSystem.Y sys else minY b)
    (if (maxY b <? SolarSystem.Y sys)%float then SolarSystem.Y sys else maxY b)
    (if (SolarSystem.Z sys <? minZ b)%float then SolarSystem.Z sys else minZ b)
    (if (maxZ b <? SolarSystem.Z sys)%float then SolarSystem.Z sys else maxZ b).

(** The box of a list of systems; [None] stands for the [continue] taken
    when the list is empty. *)
Definition bounds_of (sysList : list SolarSystem.t) : option Bounds :=
  match sysList with
  | [] => None
  | s0 :: _ => Some (foldl bounds_step (bounds_init s0) sysList)
  end.

(** [CalculateRegionBounds] calculates min/max coordinates for regions
    based on their constituent solar systems. *)
Definition CalculateRegionBounds
    (regions : list Region.t) (systems : list SolarSystem.t) : list Region.t :=
  let regionSystems := systems_by SolarSystem.RegionID systems in
  fmap (λ r,
         let sysList := default [] (regionSystems !! Region.RegionID r) in
         match bounds_of sysList with
         | None => r
         | Some b => Region.set_bounds b r
         end) regions.

(** [CalculateConstellationBounds] calculates min/max coordinates for
    constellations based on their constituent solar systems. *)
Definition CalculateConstellationBounds
    (constellations : list Constellation.t) (systems : list SolarSystem.t)
    : list Constellation.t :=
  let constellationSystems := systems_by SolarSystem.ConstellationID systems in
  fmap (λ c,
         let sysList :=
           default [] (constellationSystems !! Constellation.ConstellationID c) in
         match bounds_of sysList with
         | None => c
         | Some b => Constellation.set_bounds b c
         end) constellations.

(** The map [regionFactions] of [InheritFactionIDs]. *)
Definition regionFactions (regions : list Region.t) : gmap Z (option Z) :=
  foldl (λ m region, <[Region.RegionID region := Region.FactionID region]> m)
        ∅ regions.

(** [InheritFactionIDs] sets factionID on solar systems that don't have
    one, inheriting from their region. *)
Definition InheritFactionIDs
    (systems : list SolarSystem.t) (regions : list Region.t)
    : list SolarSystem.t :=
  let regionFactions := regionFactions regions in
  fmap (λ s,
         match SolarSystem.FactionID s with
         | None =>
             match regionFactions !! SolarSystem.RegionID s with
             | Some (Some val) => SolarSystem.set_FactionID (Some val) s
             | _ => s
             end
         | Some _ => s
         end) systems.

(** ** internal/parser: stargates *)

Module SDEStargateDestination.
Record t := mk {
  SolarSystemID : Z;
  StargateID : Z
}.
End SDEStargateDestination.

Module SDEMapStargate.
Record t := mk {
  SolarSystemID : Z;
  Destination : SDEStargateDestination.t;
  TypeID : Z
}.
End SDEMapStargate.

(** The comparison both [ParseStargates] and the transformer hand to
    [sort.Slice] for jumps: by from system ID, then by to system ID. *)
Definition jump_less (a b : SystemJump.t) : bool :=
  if bool_decide (SystemJump.FromSolarSystemID a ≠ SystemJump.FromSolarSystemID b)
  then SystemJump.FromSolarSystemID a <? SystemJump.FromSolarSystemID b
  else SystemJump.ToSolarSystemID a <? SystemJump.ToSolarSystemID b.

(** [data.SolarSystemID] and [data.Destination.SolarSystemID]. *)
Definition gate_from (data : SDEMapStargate.t) : Z :=
  SDEMapStargate.SolarSystemID data.
Definition gate_to (data : SDEMapStargate.t) : Z :=
  SDEStargateDestination.SolarSystemID (SDEMapStargate.Destination data).

(** The ordered pair of one gate record, [None] for the skipped records. *)
Definition gate_pair (data : SDEMapStargate.t) : option (Z * Z) :=
  let fromSystem := gate_from data in
  let toSystem := gate_to data in
  if bool_decide (fromSystem = 0 ∨ toSystem = 0) then None
  else if fromSystem <? toSystem then Some (fromSystem, toSystem)
  else Some (toSystem, fromSystem).

(** The set [jumpSet] after the loop over the raw stargates. *)
Definition jumpSet_of (rawStargates : gmap Z SDEMapStargate.t) : gset (Z * Z) :=
  map_fold (λ _ data jumpSet,
              match gate_pair data with
              | None => jumpSet
              | Some p => {[ p ]} ∪ jumpSet
              end) ∅ rawStargates.

(** [ParseStargates] extracts system jumps.  Its argument is what
    [yaml.ParseFileMap] returned for [mapStargates.yaml]. *)
Definition ParseStargates (parsed : result (gmap Z SDEMapStargate.t))
    : result (list SystemJump.t) :=
  match parsed with
  | Err err => Err ("failed to parse stargates file: " +:+ err)
  | Ok rawStargates =>
      let jumpSet := jumpSet_of rawStargates in
      let jumps :=
        fmap (λ p : Z * Z, SystemJump.mk 0 0 p.1 p.2 0 0)
            (elements jumpSet) in
      Ok (sort.Slice jump_less jumps)
  end.

(** ** internal/transformer/transformer.go *)

(** What [parser.ParseAll] hands to [Transform], as far as it is read. *)
Record ParseResult := mkParseResult {
  pr_Regions : list Region.t;
  pr_Constellations : list Constellation.t;
  pr_SolarSystems : list SolarSystem.t;
  pr_Types : gmap Z SDEType.t;
  pr_Groups : gmap Z SDEGroup.t;
  pr_WormholeClasses : list WormholeClassLocation.t;
  pr_SystemJumps : list SystemJump.t
}.

(** [transformSolarSystems] applies security calculation to solar systems
    while preserving all fields. *)
Definition transformSolarSystems (systems : list SolarSystem.t)
    : list SolarSystem.t :=
  let result :=
    fmap (λ sys,
           SolarSystem.set_Security
             (GetTrueSecurity (SolarSystem.Security sys)) sys) systems in
  sort.Slice (λ a b, SolarSystem.SolarSystemID a <? SolarSystem.SolarSystemID b)
             result.

(** [sortRegions] returns regions sorted by ID. *)
Definition sortRegions (regions : list Region.t) : list Region.t :=
  sort.Slice (λ a b, Region.RegionID a <? Region.RegionID b) regions.

(** [sortConstellations] returns constellations sorted by ID. *)
Definition sortConstellations (constellations : list Constellation.t)
    : list Constellation.t :=
  sort.Slice (λ a b, Constellation.ConstellationID a <? Constellation.ConstellationID b)
             constellations.

(** [sortWormholeClasses] returns wormhole classes sorted by location ID. *)
Definition sortWormholeClasses (classes : list WormholeClassLocation.t)
    : list WormholeClassLocation.t :=
  sort.Slice (λ a b, WormholeClassLocation.LocationID a
                       <? WormholeClassLocation.LocationID b) classes.

(** [sortSystemJumps] (first revision of the file) returns system jumps
    sorted by from system ID, then to system ID. *)
Definition sortSystemJumps (jumps : list SystemJump.t) : list SystemJump.t :=
  sort.Slice jump_less jumps.

(** One [InvType] of [transformTypes]. *)
Definition invType_of (typeID : Z) (sdeType : SDEType.t) : InvType.t :=
  InvType.mk typeID
    (SDEType.GroupID sdeType)
    (index_string (SDEType.Name sdeType) "en")
    (index_string (SDEType.Description sdeType) "en")
    (SDEType.Mass sdeType)
    (SDEType.Volume sdeType)
    (SDEType.Capacity sdeType)
    (SDEType.PortionSize sdeType)
    (Int64Ptr (SDEType.RaceID sdeType))
    (SDEType.BasePrice sdeType)
    (SDEType.Published sdeType)
    (Int64Ptr (SDEType.MarketGroupID sdeType))
    (Int64Ptr (SDEType.IconID sdeType))
    (Int64Ptr (SDEType.SoundID sdeType))
    (Int64Ptr (SDEType.GraphicID sdeType)).

(** [transformTypes] converts SDE types to InvType format. *)
Definition transformTypes (types : gmap Z SDEType.t) : list InvType.t :=
  let result := fmap (λ kv : Z * SDEType.t, invType_of kv.1 kv.2)
                    (map_to_list types) in
  sort.Slice (λ a b, InvType.TypeID a <? InvType.TypeID b) result.

(** One [InvGroup] of [transformGroups]. *)
Definition invGroup_of (groupID : Z) (sdeGroup : SDEGroup.t) : InvGroup.t :=
  InvGroup.mk groupID
    (SDEGroup.CategoryID sdeGroup)
    (index_string (SDEGroup.Name sdeGroup) "en")
    (Int64Ptr (SDEGroup.IconID sdeGroup))
    (SDEGroup.UseBasePrice sdeGroup)
    (SDEGroup.Anchored sdeGroup)
    (SDEGroup.Anchorable sdeGroup)
    (SDEGroup.FittableNonSingleton sdeGroup)
    (SDEGroup.Published sdeGroup).

(** [transformGroups] converts SDE groups to InvGroup format. *)
Definition transformGroups (groups : gmap Z SDEGroup.t) : list InvGroup.t :=
  let result := fmap (λ kv : Z * SDEGroup.t, invGroup_of kv.1 kv.2)
                    (map_to_list groups) in
  sort.Slice (λ a b, InvGroup.GroupID a <? InvGroup.GroupID b) result.

(** The lookup map [systemLookup] of [transformSystemJumps]. *)
Definition systemLookup (systems : list SolarSystem.t) : gmap Z SolarSystem.t :=
  foldl (λ m sys, <[SolarSystem.SolarSystemID sys := sys]> m) ∅ systems.

(** The body of the loop of [transformSystemJumps]: a fresh jump with the
    two endpoints, and the region and constellation of each endpoint that
    the lookup finds. *)
Definition enrich (lookup : gmap Z SolarSystem.t) (jump : SystemJump.t)
    : SystemJump.t :=
  let from := lookup !! SystemJump.FromSolarSystemID jump in
  let to := lookup !! SystemJump.ToSolarSystemID jump in
  SystemJump.mk
    (match from with Some fromSys => SolarSystem.RegionID fromSys | None => 0 end)
    (match from with Some fromSys => SolarSystem.ConstellationID fromSys | None => 0 end)
    (SystemJump.FromSolarSystemID jump)
    (SystemJump.ToSolarSystemID jump)
    (match to with Some toSys => SolarSystem.ConstellationID toSys | None => 0 end)
    (match to with Some toSys => SolarSystem.RegionID toSys | None => 0 end).

(** [transformSystemJumps] enriches system jumps with region and
    constellation IDs. *)
Definition transformSystemJumps
    (jumps : list SystemJump.t) (systems : list SolarSystem.t)
    : list SystemJump.t :=
  let systemLookup := systemLookup systems in
  let result := fmap (enrich systemLookup) jumps in
  sort.Slice jump_less result.

(** [Transform] converts parsed SDE data into Wanderer's output format.
    The progress lines printed when [Verbose] is set do not touch the
    data; the returned error is always nil. *)
Definition Transform (parseResult : ParseResult) : result ConvertedData :=
  let systems := transformSolarSystems (pr_SolarSystems parseResult) in
  let regions := sortRegions (pr_Regions parseResult) in
  let constellations := sortConstellations (pr_Constellations parseResult) in
  let invTypes := transformTypes (pr_Types parseResult) in
  let invGroups := transformGroups (pr_Groups parseResult) in
  let wormholeClasses := sortWormholeClasses (pr_WormholeClasses parseResult) in
  let systemJumps := transformSystemJumps (pr_SystemJumps parseResult) systems in
  Ok (mkConvertedData
        (mkUniverseData regions constellations systems)
        invTypes invGroups wormholeClasses systemJumps).

(** Validation thresholds based on known EVE universe size. *)
Definition minSolarSystems : Z := 8000.
Definition minRegions : Z := 100.
Definition minConstellations : Z := 1000.
Definition minTypes : Z := 30000.
Definition minSystemJumps : Z := 10000.

(** [fmt.Sprintf("<what> count (%d) is below expected minimum (%d)", n, min)] *)
Definition below_minimum (what : string) (n min : Z) : string :=
  what +:+ " count (" +:+ strconv.FormatInt n
       +:+ ") is below expected minimum (" +:+ strconv.FormatInt min +:+ ")".

(** [if cond { l = append(l, msg) }] *)
Definition append_if (cond : bool) (msg : string) (l : list string)
    : list string :=
  if cond then l ++ [msg] else l.

Definition len {A} (l : list A) : Z := Z.of_nat (length l).

(** [Validate] performs validation checks on the converted data. *)
Definition Validate (data : ConvertedData) : ValidationResult.t :=
  let nSolarSystems := len (SolarSystems (Universe data)) in
  let nRegions := len (Regions (Universe data)) in
  let nConstellations := len (Constellations (Universe data)) in
  let nInvTypes := len (InvTypes data) in
  let nInvGroups := len (InvGroups data) in
  let nSystemJumps := len (SystemJumps data) in
  let nWormholeClasses := len (WormholeClasses data) in
  let warnings := [] in
  let warnings :=
    append_if (nSolarSystems <? minSolarSystems)
      (below_minimum "Solar system" nSolarSystems minSolarSystems) warnings in
  let warnings :=
    append_if (nRegions <? minRegions)
      (below_minimum "Region" nRegions minRegions) warnings in
  let warnings :=
    append_if (nConstellations <? minConstellations)
      (below_minimum "Constellation" nConstellations minConstellations)
      warnings in
  let warnings :=
    append_if (nInvTypes <? minTypes)
      (below_minimum "Type" nInvTypes minTypes) warnings in
  let warnings :=
    append_if (nSystemJumps <? minSystemJumps)
      (below_minimum "System jump" nSystemJumps minSystemJumps) warnings in
  let errors := [] in
  let errors := append_if (nSolarSystems =? 0) "No solar systems found" errors in
  let errors := append_if (nRegions =? 0) "No regions found" errors in
  let errors :=
    append_if (nConstellations =? 0) "No constellations found" errors in
  ValidationResult.mk nSolarSystems nRegions nConstellations nInvTypes
    nInvGroups nSystemJumps nWormholeClasses errors warnings.

(** ** Vocabulary of the properties *)

(** [b] may follow [a] in a slice sorted with [less]. *)
Definition in_order {A} (less : A → A → bool) (a b : A) : Prop :=
  less b a = false.

(** The order of jumps: by from system ID, then by to system ID. *)
Definition jump_le (a b : SystemJump.t) : Prop :=
  SystemJump.FromSolarSystemID a < SystemJump.FromSolarSystemID b
  ∨ (SystemJump.FromSolarSystemID a = SystemJump.FromSolarSystemID b
     ∧ SystemJump.ToSolarSystemID a ≤ SystemJump.ToSolarSystemID b).

(** [m] is a least coordinate of [l]: it occurs in [l], no coordinate of
    [l] is below it, and it is below or equal to every coordinate of [l]
    when none of them is NaN. *)
Definition is_min_of (m : float) (l : list float) : Prop :=
  m ∈ l
  ∧ (∀ x, x ∈ l → (x <? m)%float = false)
  ∧ ((∀ x, x ∈ l → is_nan x = false) → ∀ x, x ∈ l → (m <=? x)%float = true).

(** [m] is a greatest coordinate of [l]. *)
Definition is_max_of (m : float) (l : list float) : Prop :=
  m ∈ l
  ∧ (∀ x, x ∈ l → (m <? x)%float = false)
  ∧ ((∀ x, x ∈ l → is_nan x = false) → ∀ x, x ∈ l → (x <=? m)%float = true).

(** [b] is the axis-aligned bounding box of the positions of [children]. *)
Definition box_of (b : Bounds) (children : list SolarSystem.t) : Prop :=
  is_min_of (minX b) (SolarSystem.X <$> children)
  ∧ is_max_of (maxX b) (SolarSystem.X <$> children)
  ∧ is_min_of (minY b) (SolarSystem.Y <$> children)
  ∧ is_max_of (maxY b) (SolarSystem.Y <$> children)
  ∧ is_min_of (minZ b) (SolarSystem.Z <$> children)
  ∧ is_max_of (maxZ b) (SolarSystem.Z <$> children).

(** The systems whose region (constellation) foreign key is [id]. *)
Definition region_members (id : Z) (systems : list SolarSystem.t)
    : list SolarSystem.t :=
  filter (λ s, SolarSystem.RegionID s = id) systems.

Definition constellation_members (id : Z) (systems : list SolarSystem.t)
    : list SolarSystem.t :=
  filter (λ s, SolarSystem.ConstellationID s = id) systems.

(** What [CalculateRegionBounds] does to one region [r], giving [r']:
    only the six bound fields can change; without children nothing
    changes; with children the bounds are their box; with one child the
    box is that child's position. *)
Definition region_bounds_spec (systems : list SolarSystem.t)
    (r r' : Region.t) : Prop :=
  let children := region_members (Region.RegionID r) systems in
  r' = Region.set_bounds (Region.bounds r') r
  ∧ (children = [] → r' = r)
  ∧ (children ≠ [] → box_of (Region.bounds r') children)
  ∧ (∀ c, children = [c] → Region.bounds r' = bounds_init c).

Definition constellation_bounds_spec (systems : list SolarSystem.t)
    (c c' : Constellation.t) : Prop :=
  let children :=
    constellation_members (Constellation.ConstellationID c) systems in
  c' = Constellation.set_bounds (Constellation.bounds c') c
  ∧ (children = [] → c' = c)
  ∧ (children ≠ [] → box_of (Constellation.bounds c') children)
  ∧ (∀ s, children = [s] → Constellation.bounds c' = bounds_init s).

(** What [InheritFactionIDs] does to one system [s], giving [s']: only the
    faction ID can change; a system with a faction ID is untouched; a
    system without one gets the faction ID that the regions with its
    region ID carry. *)
Definition inherit_spec (regions : list Region.t)
    (s s' : SolarSystem.t) : Prop :=
  s' = SolarSystem.set_FactionID (SolarSystem.FactionID s') s
  ∧ (is_Some (SolarSystem.FactionID s) → s' = s)
  ∧ ((∀ r, r ∈ regions → Region.RegionID r ≠ SolarSystem.RegionID s) → s' = s)
  ∧ (SolarSystem.FactionID s = None →
     ∀ f, (∃ r, r ∈ regions ∧ Region.RegionID r = SolarSystem.RegionID s) →
          (∀ r, r ∈ regions → Region.RegionID r = SolarSystem.RegionID s →
                Region.FactionID r = Some f) →
          SolarSystem.FactionID s' = Some f).

(** Every region of the output that has a member system carries the box
    of its members. *)
Definition regions_boxed (out : ConvertedData) : Prop :=
  ∀ r, r ∈ Regions (Universe out) →
    let members :=
      region_members (Region.RegionID r) (SolarSystems (Universe out)) in
    members ≠ [] → box_of (Region.bounds r) members.

(** No system of the output lacks a faction ID while its region carries
    one. *)
Definition factions_inherited (out : ConvertedData) : Prop :=
  ∀ s r, s ∈ SolarSystems (Universe out) → r ∈ Regions (Universe out) →
    Region.RegionID r = SolarSystem.RegionID s →
    is_Some (Region.FactionID r) → is_Some (SolarSystem.FactionID s).

(** The outcome [o] of looking for the system with ID [id]: a system of
    the collection with that ID, or nothing when there is none. *)
Definition resolves (systems : list SolarSystem.t) (id : Z)
    (o : option SolarSystem.t) : Prop :=
  match o with
  | Some s => s ∈ systems ∧ SolarSystem.SolarSystemID s = id
  | None => ∀ s, s ∈ systems → SolarSystem.SolarSystemID s ≠ id
  end.

(** [e] is the edge [j] with each side enriched from the resolved system,
    or left at zero when the endpoint does not resolve. *)
Definition enriched_from (systems : list SolarSystem.t)
    (j e : SystemJump.t) : Prop :=
  SystemJump.endpoints e = SystemJump.endpoints j
  ∧ ∃ from to,
      resolves systems (SystemJump.FromSolarSystemID j) from
      ∧ resolves systems (SystemJump.ToSolarSystemID j) to
      ∧ SystemJump.FromRegionID e = from_option SolarSystem.RegionID 0 from
      ∧ SystemJump.FromConstellationID e
        = from_option SolarSystem.ConstellationID 0 from
      ∧ SystemJump.ToRegionID e = from_option SolarSystem.RegionID 0 to
      ∧ SystemJump.ToConstellationID e
        = from_option SolarSystem.ConstellationID 0 to.

(** A count below [min] makes [Validate] warn. *)
Definition warns_below (count : ConvertedData → Z) (min : Z) : Prop :=
  ∀ data, count data < min →
    ValidationResult.Warnings (Validate data) ≠ [].

(** ** Sample data *)

Module sample.

Definition the_forge : Region.t :=
  Region.mk 10000002 "The Forge" (Some 500001) 0 0 0 0 0 0 0 0 0 0 0.

Definition kimotoro : Constellation.t :=
  Constellation.mk 10000002 20000020 "Kimotoro" (Some 500001)
    0 0 0 0 0 0 0 0 0 0.

Definition system (id region constellation : Z) (name : string)
    (faction : option Z) (x y z security : float) : SolarSystem.t :=
  SolarSystem.mk region constellation id name faction None x y z
    0 0 0 0 0 0 0 false false false false false false "None" security 0 "".

Definition jita : SolarSystem.t :=
  system 30000142 10000002 20000020 "Jita" None 5 6 7 0.9459.

Definition perimeter : SolarSystem.t :=
  system 30000144 10000002 20000020 "Perimeter" (Some 500001) 8 2 9 0.04.

(** A gate in system [from] that leads to the gate [destGate] in system
    [to]. *)
Definition gate (from to destGate : Z) : SDEMapStargate.t :=
  SDEMapStargate.mk from (SDEStargateDestination.mk to destGate) 16.

Definition jump (from to : Z) : SystemJump.t :=
  SystemJump.mk 0 0 from to 0 0.

Definition sde_type : SDEType.t :=
  SDEType.mk 25 {[ "en" := "Rifter" ]} ∅ 1067000 27289 140 1 2 0 true 61 0 0 46.

Definition sde_group : SDEGroup.t :=
  SDEGroup.mk 6 {[ "en" := "Frigate" ]} 0 false false false false true.

(** One region, one constellation and one system without a faction ID
    of its own; the parsed bounds of the region are all zero. *)
Definition parse_result : ParseResult :=
  mkParseResult [the_forge] [kimotoro] [jita] ∅ ∅ [] [].

(** A dataset that meets every minimum of [Validate] and has neither
    groups nor wormhole classes. *)
Definition full_data : ConvertedData :=
  mkConvertedData
    (mkUniverseData (replicate (Z.to_nat 100) the_forge) (replicate (Z.to_nat 1000) kimotoro)
                    (replicate (Z.to_nat 8000) jita))
    (replicate (Z.to_nat 30000) (invType_of 587 sde_type)) [] []
    (replicate (Z.to_nat 10000) (jump 30000142 30000144)).

End sample.

(** ** internal/parser: regions, constellations, solar systems *)

Module SDEMapRegion.
Record t := mk {
  RegionID : Z;
  Name : gmap string string;
  NameID : Z;
  DescriptionID : Z;
  FactionID : Z;
  Center : list float;
  Max : list float;
  Min : list float
}.
End SDEMapRegion.

Module SDEMapConstellation.
Record t := mk {
  ConstellationID : Z;
  RegionID : Z;
  Name : gmap string string;
  NameID : Z;
  FactionID : Z;
  Center : list float;
  Max : list float;
  Min : list float;
  Radius : float
}.
End SDEMapConstellation.

Module SDEMapSolarSystem.
Record t := mk {
  SolarSystemID : Z;
  ConstellationID : Z;
  RegionID : Z;
  Name : gmap string string;
  Security : float;
  SecurityClass : string;
  SunTypeID : Z;
  WormholeClassID : Z;
  FactionID : Z;
  Border : bool;
  Corridor : bool;
  Fringe : bool;
  Hub : bool;
  International : bool;
  Regional : bool;
  Center : list float;
  Max : list float;
  Min : list float;
  Luminosity : float;
  Radius : float
}.
End SDEMapSolarSystem.

(** [a[0], a[1], a[2]] when [len(a) >= 3], the zero values otherwise: a
    struct field that is not assigned keeps its zero value. *)
Definition first_three (a : list float) : float * float * float :=
  match a with
  | x :: y :: z :: _ => (x, y, z)
  | _ => (0, 0, 0)%float
  end.

(** [name := names["en"]; if name == "" { name = fmt.Sprintf("<kind> %d", id) }] *)
Definition name_or_default (kind : string) (id : Z)
    (names : gmap string string) : string :=
  let name := index_string names "en" in
  if decide (name = "") then kind +:+ " " +:+ strconv.FormatInt id else name.

(** The region that [ParseRegions] builds from one entry of the file. *)
Definition region_of (id : Z) (data : SDEMapRegion.t) : Region.t :=
  let c := first_three (SDEMapRegion.Center data) in
  let lo := first_three (SDEMapRegion.Min data) in
  let hi := first_three (SDEMapRegion.Max data) in
  Region.mk id (name_or_default "Region" id (SDEMapRegion.Name data))
    (Int64Ptr (SDEMapRegion.FactionID data)) 0
    c.1.1 c.1.2 c.2
    lo.1.1 hi.1.1 lo.1.2 hi.1.2 lo.2 hi.2
    0.

(** [ParseRegions] parses the mapRegions.yaml file; its argument is what
    [yaml.ParseFileMap] returned for that file. *)
Definition ParseRegions (parsed : result (gmap Z SDEMapRegion.t))
    : result (list Region.t) :=
  match parsed with
  | Err err => Err ("failed to parse regions file: " +:+ err)
  | Ok rawRegions =>
      let regions := fmap (λ kv : Z * SDEMapRegion.t, region_of kv.1 kv.2)
                          (map_to_list rawRegions) in
      Ok (sort.Slice (λ a b, Region.RegionID a <? Region.RegionID b) regions)
  end.

(** The constellation that [ParseConstellations] builds from one entry. *)
Definition constellation_of (id : Z) (data : SDEMapConstellation.t)
    : Constellation.t :=
  let c := first_three (SDEMapConstellation.Center data) in
  let lo := first_three (SDEMapConstellation.Min data) in
  let hi := first_three (SDEMapConstellation.Max data) in
  Constellation.mk (SDEMapConstellation.RegionID data) id
    (name_or_default "Constellation" id (SDEMapConstellation.Name data))
    (Int64Ptr (SDEMapConstellation.FactionID data))
    c.1.1 c.1.2 c.2
    lo.1.1 hi.1.1 lo.1.2 hi.1.2 lo.2 hi.2
    (SDEMapConstellation.Radius data).

(** [ParseConstellations] parses the mapConstellations.yaml file. *)
Definition ParseConstellations (parsed : result (gmap Z SDEMapConstellation.t))
    : result (list Constellation.t) :=
  match parsed with
  | Err err => Err ("failed to parse constellations file: " +:+ err)
  | Ok rawConstellations =>
      let constellations :=
        fmap (λ kv : Z * SDEMapConstellation.t, constellation_of kv.1 kv.2)
             (map_to_list rawConstellations) in
      Ok (sort.Slice (λ a b, Constellation.ConstellationID a
                               <? Constellation.ConstellationID b)
                     constellations)
  end.

(** The solar system that [ParseSolarSystems] builds from one entry. *)
Definition system_of (id : Z) (data : SDEMapSolarSystem.t) : SolarSystem.t :=
  let c := first_three (SDEMapSolarSystem.Center data) in
  let lo := first_three (SDEMapSolarSystem.Min data) in
  let hi := first_three (SDEMapSolarSystem.Max data) in
  SolarSystem.mk
    (SDEMapSolarSystem.RegionID data)
    (SDEMapSolarSystem.ConstellationID data)
    id
    (name_or_default "System" id (SDEMapSolarSystem.Name data))
    (Int64Ptr (SDEMapSolarSystem.FactionID data))
    (Int64Ptr (SDEMapSolarSystem.SunTypeID data))
    c.1.1 c.1.2 c.2
    lo.1.1 hi.1.1 lo.1.2 hi.1.2 lo.2 hi.2
    (SDEMapSolarSystem.Luminosity data)
    (SDEMapSolarSystem.Border data)
    (SDEMapSolarSystem.Fringe data)
    (SDEMapSolarSystem.Corridor data)
    (SDEMapSolarSystem.Hub data)
    (SDEMapSolarSystem.International data)
    (SDEMapSolarSystem.Regional data)
    "None"
    (SDEMapSolarSystem.Security data)
    (SDEMapSolarSystem.Radius data)
    (SDEMapSolarSystem.SecurityClass data).

(** [ParseSolarSystems] parses the mapSolarSystems.yaml file. *)
Definition ParseSolarSystems (parsed : result (gmap Z SDEMapSolarSystem.t))
    : result (list SolarSystem.t) :=
  match parsed with
  | Err err => Err ("failed to parse solar systems file: " +:+ err)
  | Ok rawSystems =>
      let systems := fmap (λ kv : Z * SDEMapSolarSystem.t, system_of kv.1 kv.2)
                          (map_to_list rawSystems) in
      Ok (sort.Slice (λ a b, SolarSystem.SolarSystemID a
                               <? SolarSystem.SolarSystemID b) systems)
  end.

(** [ExtractWormholeClasses] extracts wormhole class information.  It
    parses the solar system file again and does not read its [systems]
    argument; a file that does not parse gives the nil slice. *)
Definition ExtractWormholeClasses
    (parsed : result (gmap Z SDEMapSolarSystem.t))
    (systems : list SolarSystem.t) : list WormholeClassLocation.t :=
  match parsed with
  | Err _ => []
  | Ok rawSystems =>
      let wormholeClasses :=
        omap (λ kv : Z * SDEMapSolarSystem.t,
                if decide (SDEMapSolarSystem.WormholeClassID kv.2 ≠ 0)
                then Some (WormholeClassLocation.mk kv.1
                             (SDEMapSolarSystem.WormholeClassID kv.2))
                else None)
             (map_to_list rawSystems) in
      sort.Slice (λ a b, WormholeClassLocation.LocationID a
                           <? WormholeClassLocation.LocationID b)
                 wormholeClasses
  end.

(** ** Vocabulary of the further properties *)

(** No coordinate of the system is NaN. *)
Definition position_defined (s : SolarSystem.t) : Prop :=
  is_nan (SolarSystem.X s) = false
  ∧ is_nan (SolarSystem.Y s) = false
  ∧ is_nan (SolarSystem.Z s) = false.

(** The position of [s] lies within the box [b] on all three axes. *)
Definition inside (b : Bounds) (s : SolarSystem.t) : Prop :=
  (minX b <=? SolarSystem.X s)%float = true
  ∧ (SolarSystem.X s <=? maxX b)%float = true
  ∧ (minY b <=? SolarSystem.Y s)%float = true
  ∧ (SolarSystem.Y s <=? maxY b)%float = true
  ∧ (minZ b <=? SolarSystem.Z s)%float = true
  ∧ (SolarSystem.Z s <=? maxZ b)%float = true.

(** The box is not inverted on any axis. *)
Definition well_formed (b : Bounds) : Prop :=
  (minX b <=? maxX b)%float = true
  ∧ (minY b <=? maxY b)%float = true
  ∧ (minZ b <=? maxZ b)%float = true.

(** The two boxes are equal as numbers ([==] of Go on each of the six
    fields; this identifies the two zeros). *)
Definition same_box (b1 b2 : Bounds) : Prop :=
  (minX b1 =? minX b2)%float = true ∧ (maxX b1 =? maxX b2)%float = true
  ∧ (minY b1 =? minY b2)%float = true ∧ (maxY b1 =? maxY b2)%float = true
  ∧ (minZ b1 =? minZ b2)%float = true ∧ (maxZ b1 =? maxZ b2)%float = true.

(** The order of jumps without ties. *)
Definition jump_lt (a b : SystemJump.t) : Prop :=
  SystemJump.FromSolarSystemID a < SystemJump.FromSolarSystemID b
  ∨ (SystemJump.FromSolarSystemID a = SystemJump.FromSolarSystemID b
     ∧ SystemJump.ToSolarSystemID a < SystemJump.ToSolarSystemID b).

(** The security value with the two decimals [n / 100], and the display
    value [n / 10], as floats. *)
Definition hundredths (n : Z) : float :=
  if n <? 0 then PrimFloat.opp (math.of_int (- n) / 100)
  else (math.of_int n / 100)%float.

Definition tenths (n : Z) : float :=
  if n <? 0 then PrimFloat.opp (math.of_int (- n) / 10)
  else (math.of_int n / 10)%float.

(** The display rule of section 4.1 in exact decimal arithmetic, on
    hundredths: the number of tenths shown for [n / 100]. *)
Definition decimal_display (n : Z) : Z :=
  if bool_decide (0 < n < 5) then 1
  else if n mod 10 <? 5 then n / 10
  else n / 10 + 1.

(** [n / 100] rounded to tenths, halves away from zero. *)
Definition decimal_round (n : Z) : Z :=
  if n <? 0 then - ((- n + 5) / 10) else (n + 5) / 10.

(** ** Facts about binary64 comparison *)

Section float_order.

Lemma SFltb_irrefl x : SFltb x x = false.
Proof.
  unfold SFltb, SFcompare.
  destruct x as [[]|[]| |[] m e]; try reflexivity;
    rewrite Z.compare_refl, Pos.compare_cont_refl; reflexivity.
Qed.

Lemma SFltb_trans x y z :
  SFltb x y = true → SFltb y z = true → SFltb x z = true.
Proof.
  unfold SFltb, SFcompare.
  destruct x as [[]|[]| |[] mx ex], y as [[]|[]| |[] my ey],
    z as [[]|[]| |[] mz ez]; try (intros; discriminate || reflexivity);
    change (Pos.compare_cont Eq) with Pos.compare;
    destruct (Z.compare_spec ex ey), (Z.compare_spec ey ez),
      (Z.compare_spec ex ez); try lia; try (intros; discriminate || reflexivity);
    destruct (Pos.compare_spec mx my), (Pos.compare_spec my mz),
      (Pos.compare_spec mx mz); try lia; intros; discriminate || reflexivity.
Qed.

Lemma SFltb_false_leb x y :
  x ≠ S754_nan → y ≠ S754_nan → SFltb x y = false → SFleb y x = true.
Proof.
  unfold SFltb, SFleb, SFcompare.
  destruct x as [[]|[]| |[] mx ex], y as [[]|[]| |[] my ey];
    try (intros; congruence || reflexivity);
    change (Pos.compare_cont Eq) with Pos.compare;
    destruct (Z.compare_spec ex ey), (Z.compare_spec ey ex);
    try lia; try (intros; discriminate || reflexivity);
    destruct (Pos.compare_spec mx my), (Pos.compare_spec my mx);
    try lia; intros; discriminate || reflexivity.
Qed.

Lemma ltb_irrefl (x : float) : (x <? x)%float = false.
Proof. rewrite ltb_spec. apply SFltb_irrefl. Qed.

Lemma ltb_trans (x y z : float) :
  (x <? y)%float = true → (y <? z)%float = true → (x <? z)%float = true.
Proof. rewrite !ltb_spec. apply SFltb_trans. Qed.

Lemma is_nan_false (x : float) : is_nan x = false → Prim2SF x ≠ S754_nan.
Proof.
  unfold is_nan. rewrite FloatAxioms.eqb_spec. intros H Hn.
  rewrite Hn in H. discriminate.
Qed.

Lemma ltb_false_leb (x y : float) :
  is_nan x = false → is_nan y = false →
  (x <? y)%float = false → (y <=? x)%float = true.
Proof.
  intros Hx Hy. rewrite ltb_spec, leb_spec.
  apply SFltb_false_leb; by apply is_nan_false.
Qed.

End float_order.

(** ** Facts about binary64 rounding: a product below one stays in (0, 1] *)

Section float_rounding.

Lemma digits2_lt p : Zpos p < 2 ^ Zpos (digits2_pos p).
Proof.
  induction p as [p IH|p IH|]; cbn [digits2_pos]; try reflexivity;
    rewrite Pos2Z.inj_succ, Z.pow_succ_r by lia; lia.
Qed.

Lemma digits2_ge p : 2 ^ (Zpos (digits2_pos p) - 1) ≤ Zpos p.
Proof.
  induction p as [p IH|p IH|]; cbn [digits2_pos]; try (cbn; lia);
    rewrite Pos2Z.inj_succ; replace (Z.succ (Zpos (digits2_pos p)) - 1)
      with (Z.succ (Zpos (digits2_pos p) - 1)) by lia;
    rewrite Z.pow_succ_r by lia; lia.
Qed.

Lemma digits2_le_of_lt p k : 0 ≤ k → Zpos p < 2 ^ k → Zpos (digits2_pos p) ≤ k.
Proof.
  intros Hk Hp. pose proof (digits2_ge p) as Hge.
  destruct (Z.le_gt_cases (Zpos (digits2_pos p)) k) as [|Hgt]; [done|].
  assert (2 ^ k ≤ 2 ^ (Zpos (digits2_pos p) - 1))
    by (apply Z.pow_le_mono_r; lia).
  lia.
Qed.

Lemma shr_1_m mrs : 0 ≤ shr_m mrs → shr_m (shr_1 mrs) = shr_m mrs / 2.
Proof.
  destruct mrs as [m r s]; cbn [shr_m]. intros Hm.
  rewrite <- Z.div2_div.
  destruct m as [|[p|p|]|p]; try reflexivity. lia.
Qed.

Lemma pow2_xO p : 2 ^ Zpos p~0 = 2 ^ Zpos p * 2 ^ Zpos p.
Proof.
  replace (Zpos p~0) with (Zpos p + Zpos p) by lia.
  apply Z.pow_add_r; lia.
Qed.

Lemma pow2_xI p : 2 ^ Zpos p~1 = 2 * (2 ^ Zpos p * 2 ^ Zpos p).
Proof.
  replace (Zpos p~1) with (1 + Zpos p~0) by lia.
  rewrite Z.pow_add_r, pow2_xO by lia. reflexivity.
Qed.

Lemma iter_shr_1_m p mrs :
  0 ≤ shr_m mrs →
  shr_m (SpecFloat.iter_pos shr_1 p mrs) = shr_m mrs / 2 ^ Zpos p.
Proof.
  revert mrs.
  induction p as [p IH|p IH|]; intros mrs Hm; cbn [SpecFloat.iter_pos].
  - assert (0 ≤ shr_m (shr_1 mrs)) as H1
      by (rewrite shr_1_m by done; apply Z.div_pos; lia).
    assert (0 ≤ shr_m (SpecFloat.iter_pos shr_1 p (shr_1 mrs))) as H2
      by (rewrite IH by done; apply Z.div_pos; lia).
    rewrite IH, IH, shr_1_m by done.
    rewrite !Z.div_div by lia. by rewrite pow2_xI, Z.mul_assoc.
  - assert (0 ≤ shr_m (SpecFloat.iter_pos shr_1 p mrs)) as H2
      by (rewrite IH by done; apply Z.div_pos; lia).
    rewrite IH, IH by done.
    rewrite !Z.div_div by lia. by rewrite pow2_xO.
  - rewrite shr_1_m by done. reflexivity.
Qed.

Lemma shr_spec mrs e n :
  0 ≤ shr_m mrs →
  shr_m (shr mrs e n).1 = shr_m mrs / 2 ^ Z.max n 0 ∧
  (shr mrs e n).2 = e + Z.max n 0.
Proof.
  intros Hm. destruct n as [|p|p]; cbn [shr fst snd].
  - rewrite Z.div_1_r. lia.
  - rewrite iter_shr_1_m by done. rewrite Z.max_l by lia. done.
  - rewrite Z.max_r by lia. rewrite Z.div_1_r. lia.
Qed.

Lemma round_nearest_even_bounds m l :
  m ≤ round_nearest_even m l ≤ m + 1.
Proof.
  destruct l as [|[]]; cbn [round_nearest_even]; try lia.
  destruct (Z.even m); lia.
Qed.

(** Shifting a mantissa of [d] binary digits right by fewer than [d]
    places leaves at least one. *)
Lemma shifted_mantissa_pos p k :
  0 ≤ k < Zpos (digits2_pos p) → 1 ≤ Zpos p / 2 ^ k.
Proof.
  intros Hk. pose proof (digits2_ge p).
  apply Z.div_le_lower_bound; [lia|]. rewrite Z.mul_1_r.
  transitivity (2 ^ (Zpos (digits2_pos p) - 1)); [|done].
  apply Z.pow_le_mono_r; lia.
Qed.

Lemma binary_round_aux_unit P E :
  Zpos P < 2 ^ (- E) →
  - 1074 - E < Zpos (digits2_pos P) →
  ∃ mf ef,
    binary_round_aux prec emax false (Zpos P) E loc_Exact
      = S754_finite false mf ef
    ∧ ef < 0 ∧ Zpos mf ≤ 2 ^ (- ef).
Proof.
  intros HP Hd.
  assert (E < 0) as HE.
  { destruct (Z.lt_trichotomy E 0) as [|[->|HE]]; [done|cbn in HP; lia|].
    rewrite Z.pow_neg_r in HP by lia. lia. }
  pose proof (digits2_le_of_lt P (- E) ltac:(lia) HP) as HdE.
  unfold binary_round_aux, shr_fexp.
  cbn [shr_record_of_loc Zdigits2].
  set (n1 := fexp prec emax (Zpos (digits2_pos P) + E) - E).
  pose proof (shr_spec (Build_shr_record (Zpos P) false false) E n1
                ltac:(cbn; lia)) as [Hm1 He1].
  destruct (shr _ E n1) as [mrs1 e1]. cbn [fst snd shr_m] in *.
  set (k1 := Z.max n1 0) in *.
  assert (n1 = Z.max (Zpos (digits2_pos P) - 53) (- 1074 - E)) as Hn1
    by (unfold n1, fexp, emin, prec, emax; lia).
  assert (0 ≤ k1 < Zpos (digits2_pos P)) as Hk1 by lia.
  pose proof (shifted_mantissa_pos P k1 Hk1) as Hm1pos.
  assert (- 1074 ≤ e1 < 0) as He1b by lia.
  assert (shr_m mrs1 < 2 ^ (- e1)) as Hm1lt.
  { rewrite Hm1. apply Z.div_lt_upper_bound; [lia|].
    rewrite <- Z.pow_add_r by lia.
    replace (k1 + - e1) with (- E) by lia. done. }
  pose proof (round_nearest_even_bounds (shr_m mrs1)
                (loc_of_shr_record mrs1)) as Hr.
  destruct (round_nearest_even _ _) as [|p2|p2]; try lia.
  cbn [Zdigits2].
  set (n2 := fexp prec emax (Zpos (digits2_pos p2) + e1) - e1).
  pose proof (shr_spec (Build_shr_record (Zpos p2) false false) e1 n2
                ltac:(cbn; lia)) as [Hm2 He2].
  destruct (shr _ e1 n2) as [mrs2 e2]. cbn [fst snd shr_m] in *.
  set (k2 := Z.max n2 0) in *.
  assert (Zpos p2 < 2 ^ (- e1 + 1)) as Hp2.
  { rewrite Z.pow_add_r by lia. lia. }
  pose proof (digits2_le_of_lt p2 (- e1 + 1) ltac:(lia) Hp2) as Hd2.
  assert (k2 = Z.max (Zpos (digits2_pos p2) - 53) 0) as Hk2
    by (unfold k2, n2, fexp, emin, prec, emax; lia).
  assert (0 ≤ k2 < Zpos (digits2_pos p2)) as Hk2b by lia.
  pose proof (shifted_mantissa_pos p2 k2 Hk2b) as Hm2pos.
  assert (shr_m mrs2 ≤ 2 ^ (- e2)) as Hm2le.
  { rewrite Hm2. apply Z.div_le_upper_bound; [lia|].
    rewrite <- Z.pow_add_r by lia.
    replace (k2 + - e2) with (- e1) by lia. lia. }
  destruct (shr_m mrs2) as [|mf|mf] eqn:Hmf; try lia.
  exists mf, e2.
  replace (e2 <=? emax - prec) with true
    by (symmetry; apply Z.leb_le; unfold emax, prec; lia).
  repeat split; [lia|done].
Qed.

End float_rounding.

Section low_security.

Lemma bounded_binary64 m e :
  bounded prec emax m e = true →
  Zpos (digits2_pos m) ≤ 53 ∧ - 1074 ≤ e.
Proof.
  unfold bounded, canonical_mantissa, fexp, emin, prec, emax.
  intros [H1 _]%andb_prop. apply Z.eqb_eq in H1. lia.
Qed.

(** Ten times a positive float below 0.05 is a float in (0, 1]. *)
Lemma mul_ten_unit m e :
  bounded prec emax m e = true →
  SFltb (S754_finite false m e) (Prim2SF 0.05) = true →
  ∃ mf ef,
    SF64mul (S754_finite false m e) (Prim2SF 10) = S754_finite false mf ef
    ∧ ef < 0 ∧ Zpos mf ≤ 2 ^ (- ef).
Proof.
  intros [Hd He]%bounded_binary64 Hlt.
  pose proof (digits2_lt m) as Hm.
  assert (Zpos m < 2 ^ 53) as Hm53.
  { eapply Z.lt_le_trans; [done|]. apply Z.pow_le_mono_r; lia. }
  change (2 ^ 53) with 9007199254740992 in Hm53.
  change (Prim2SF 10) with (S754_finite false 5629499534213120 (-49)).
  change (Prim2SF 0.05) with (S754_finite false 7205759403792794 (-57)) in Hlt.
  unfold SF64mul. cbn [SFmul xorb].
  apply binary_round_aux_unit.
  - unfold SFltb, SFcompare in Hlt.
    change (Pos.compare_cont Eq) with Pos.compare in Hlt.
    rewrite Pos2Z.inj_mul.
    destruct (Z.compare_spec e (-57)) as [->|He57|?]; [| |discriminate].
    + destruct (Pos.compare_spec m 7205759403792794) as [|Hlt'|];
        try discriminate.
      change (2 ^ (- (-57 + -49))) with 81129638414606681695789005144064.
      apply Pos2Z.pos_lt_pos in Hlt'. clear - Hlt'. lia.
    + assert (2 ^ 107 ≤ 2 ^ (- (e + -49))) as Hpow
        by (apply Z.pow_le_mono_r; lia).
      change (2 ^ 107) with 162259276829213363391578010288128 in Hpow.
      clear - Hpow Hm53. lia.
  - pose proof (digits2_lt (m * 5629499534213120)) as HP.
    rewrite Pos2Z.inj_mul in HP.
    destruct (Z.le_gt_cases (Zpos (digits2_pos (m * 5629499534213120))) 50)
      as [Hle|]; [|lia].
    assert (2 ^ Zpos (digits2_pos (m * 5629499534213120)) ≤ 2 ^ 50) as Hpow
      by (apply Z.pow_le_mono_r; lia).
    change (2 ^ 50) with 1125899906842624 in Hpow.
    clear - HP Hpow. lia.
Qed.

Lemma Ceil_unit y mf ef :
  Prim2SF y = S754_finite false mf ef →
  ef < 0 → Zpos mf ≤ 2 ^ (- ef) →
  math.Ceil y = 1%float.
Proof.
  intros Hy He Hm. unfold math.Ceil, math.Floor.
  rewrite opp_spec, Hy. cbn [SFopp negb].
  destruct (Z.leb_spec 0 ef) as [|_]; [lia|].
  unfold math.frac_part, math.int_part.
  rewrite Z.shiftr_div_pow2, Z.shiftl_mul_pow2 by lia.
  destruct (Z.eq_dec (Zpos mf) (2 ^ (- ef))) as [Heq|Hne].
  - rewrite Heq, Z.div_same by lia.
    replace (2 ^ (- ef) - 1 * 2 ^ (- ef) =? 0) with true
      by (symmetry; apply Z.eqb_eq; lia).
    reflexivity.
  - rewrite Z.div_small by lia. cbn [Z.mul Z.add].
    replace (Zpos mf - 0 =? 0) with false
      by (symmetry; apply Z.eqb_neq; lia).
    reflexivity.
Qed.

Lemma GetTrueSecurity_low r :
  (0 <? r)%float = true → (r <? 0.05)%float = true →
  GetTrueSecurity r = 0.1%float.
Proof.
  intros H0 H1. unfold GetTrueSecurity. rewrite H0, H1. cbn [andb].
  pose proof (Prim2SF_valid r) as Hv.
  rewrite ltb_spec in H0. rewrite ltb_spec in H1.
  change (Prim2SF 0) with (S754_zero false) in H0.
  destruct (Prim2SF r) as [s|s| |s m e] eqn:Hr;
    try (destruct s; discriminate); try discriminate.
  destruct s; [discriminate|].
  destruct (mul_ten_unit m e Hv H1) as (mf & ef & Hmul & He & Hm).
  rewrite (Ceil_unit (r * 10) mf ef); [reflexivity| |done|done].
  rewrite mul_spec, Hr. exact Hmul.
Qed.

End low_security.

(** ** sort.Slice returns a sorted rearrangement *)

Section sort_facts.
Context {A : Type} (less : A → A → bool).
Hypothesis less_asym : ∀ a b, less a b = true → less b a = false.

Lemma insert_Permutation x l : sort.insert less x l ≡ₚ x :: l.
Proof.
  induction l as [|y l IH]; cbn [sort.insert]; [done|].
  destruct (less x y); [done|]. rewrite IH. apply Permutation_swap.
Qed.

Lemma Slice_Permutation l : sort.Slice less l ≡ₚ l.
Proof.
  induction l as [|x l IH]; cbn [sort.Slice]; [done|].
  by rewrite insert_Permutation, IH.
Qed.

Lemma Slice_length l : length (sort.Slice less l) = length l.
Proof. by rewrite Slice_Permutation. Qed.

Lemma elem_of_Slice x l : x ∈ sort.Slice less l ↔ x ∈ l.
Proof. by rewrite Slice_Permutation. Qed.

Lemma insert_HdRel a x l :
  in_order less a x → HdRel (in_order less) a l → HdRel (in_order less) a (sort.insert less x l).
Proof.
  intros Hax Hal. destruct l as [|y l]; cbn [sort.insert].
  - by constructor.
  - destruct (less x y); constructor; [done|].
    by inversion Hal.
Qed.

Lemma insert_Sorted x l :
  Sorted (in_order less) l → Sorted (in_order less) (sort.insert less x l).
Proof.
  induction 1 as [|y l Hs IH Hhd]; cbn [sort.insert].
  - repeat constructor.
  - destruct (less x y) eqn:Hxy.
    + constructor; [by constructor|]. constructor. by apply less_asym.
    + constructor; [done|]. by apply insert_HdRel.
Qed.

Lemma Slice_Sorted l : Sorted (in_order less) (sort.Slice less l).
Proof.
  induction l as [|x l IH]; cbn [sort.Slice]; [constructor|].
  by apply insert_Sorted.
Qed.
End sort_facts.

Lemma Sorted_weaken {A} (R1 R2 : A → A → Prop) l :
  (∀ a b, R1 a b → R2 a b) → Sorted R1 l → Sorted R2 l.
Proof.
  intros HR. induction 1 as [|x l Hs IH Hhd]; constructor; [done|].
  destruct Hhd; constructor; auto.
Qed.

(** Sorting by an integer key with [key a < key b] as [less]. *)
Lemma Slice_Sorted_key {A} (key : A → Z) l :
  Sorted (λ a b, key a ≤ key b) (sort.Slice (λ a b, key a <? key b) l).
Proof.
  eapply Sorted_weaken; [|apply Slice_Sorted].
  - intros a b Hab. unfold in_order in Hab. lia.
  - intros a b Hab. lia.
Qed.

Lemma jump_less_asym a b : jump_less a b = true → jump_less b a = false.
Proof.
  unfold jump_less. repeat case_bool_decide; lia.
Qed.

Lemma jump_less_false a b : jump_less b a = false → jump_le a b.
Proof.
  unfold jump_less, jump_le. repeat case_bool_decide; lia.
Qed.

Lemma Slice_Sorted_jumps l : Sorted jump_le (sort.Slice jump_less l).
Proof.
  eapply Sorted_weaken; [|apply Slice_Sorted, jump_less_asym].
  intros a b. apply jump_less_false.
Qed.

(** ** Maps built by a loop of insertions *)

Lemma systems_by_lookup key systems k :
  default [] (systems_by key systems !! k)
  = filter (λ s, key s = k) systems.
Proof.
  unfold systems_by.
  induction systems as [|s systems IH] using rev_ind; [done|].
  rewrite foldl_app, filter_app. cbn [foldl].
  destruct (decide (key s = k)) as [<-|Hne].
  - rewrite lookup_insert_eq. cbn [default]. rewrite IH.
    rewrite (filter_cons _ s []), decide_True by done. done.
  - rewrite lookup_insert_ne by done. rewrite IH.
    rewrite (filter_cons _ s []), decide_False by done.
    by rewrite app_nil_r.
Qed.

Lemma systemLookup_snoc systems s :
  systemLookup (systems ++ [s])
  = <[SolarSystem.SolarSystemID s := s]> (systemLookup systems).
Proof. unfold systemLookup. by rewrite foldl_app. Qed.

Lemma systemLookup_Some systems id s :
  systemLookup systems !! id = Some s →
  s ∈ systems ∧ SolarSystem.SolarSystemID s = id.
Proof.
  induction systems as [|s' systems IH] using rev_ind; [done|].
  rewrite systemLookup_snoc. intros Hl.
  destruct (decide (SolarSystem.SolarSystemID s' = id)) as [<-|Hne].
  - rewrite lookup_insert_eq in Hl. injection Hl as ->.
    split; [|done]. apply elem_of_app. right. by apply list_elem_of_singleton.
  - rewrite lookup_insert_ne in Hl by done.
    destruct (IH Hl) as [? ?]. split; [|done].
    apply elem_of_app. by left.
Qed.

Lemma systemLookup_None systems id :
  systemLookup systems !! id = None ↔
  ∀ s, s ∈ systems → SolarSystem.SolarSystemID s ≠ id.
Proof.
  induction systems as [|s' systems IH] using rev_ind.
  - split; [|done]. intros _ s Hs. by apply not_elem_of_nil in Hs.
  - rewrite systemLookup_snoc. split.
    + intros Hl s [Hs|Hs%list_elem_of_singleton]%elem_of_app.
      * destruct (decide (SolarSystem.SolarSystemID s' = id)) as [<-|Hne].
        -- by rewrite lookup_insert_eq in Hl.
        -- rewrite lookup_insert_ne in Hl by done. by apply IH.
      * subst s. intros <-. by rewrite lookup_insert_eq in Hl.
    + intros Hall. rewrite lookup_insert_ne.
      * apply IH. intros s Hs. apply Hall, elem_of_app. by left.
      * apply Hall, elem_of_app. right. by apply list_elem_of_singleton.
Qed.

(** With unique system IDs the lookup finds every system of the list. *)
Lemma systemLookup_NoDup systems s :
  NoDup (SolarSystem.SolarSystemID <$> systems) → s ∈ systems →
  systemLookup systems !! SolarSystem.SolarSystemID s = Some s.
Proof.
  induction systems as [|s' systems IH] using rev_ind.
  - intros _ Hs. by apply not_elem_of_nil in Hs.
  - rewrite fmap_app, systemLookup_snoc. cbn [fmap list_fmap].
    intros Hnd [Hs|Hs%list_elem_of_singleton]%elem_of_app.
    + apply NoDup_app in Hnd as (Hnd & Hdisj & _).
      rewrite lookup_insert_ne; [by apply IH|].
      intros Heq. apply (Hdisj (SolarSystem.SolarSystemID s)).
      * by apply list_elem_of_fmap_2.
      * rewrite <- Heq. by apply list_elem_of_singleton.
    + subst s'. by rewrite lookup_insert_eq.
Qed.

Lemma regionFactions_snoc regions r :
  regionFactions (regions ++ [r])
  = <[Region.RegionID r := Region.FactionID r]> (regionFactions regions).
Proof. unfold regionFactions. by rewrite foldl_app. Qed.

Lemma regionFactions_Some regions id f :
  regionFactions regions !! id = Some f →
  ∃ r, r ∈ regions ∧ Region.RegionID r = id ∧ Region.FactionID r = f.
Proof.
  induction regions as [|r' regions IH] using rev_ind; [done|].
  rewrite regionFactions_snoc. intros Hl.
  destruct (decide (Region.RegionID r' = id)) as [<-|Hne].
  - rewrite lookup_insert_eq in Hl. injection Hl as <-.
    exists r'. split; [|done].
    apply elem_of_app. right. by apply list_elem_of_singleton.
  - rewrite lookup_insert_ne in Hl by done.
    destruct (IH Hl) as (r & ? & ? & ?). exists r. split; [|done].
    apply elem_of_app. by left.
Qed.

Lemma regionFactions_None regions id :
  regionFactions regions !! id = None ↔
  ∀ r, r ∈ regions → Region.RegionID r ≠ id.
Proof.
  induction regions as [|r' regions IH] using rev_ind.
  - split; [|done]. intros _ r Hr. by apply not_elem_of_nil in Hr.
  - rewrite regionFactions_snoc. split.
    + intros Hl r [Hr|Hr%list_elem_of_singleton]%elem_of_app.
      * destruct (decide (Region.RegionID r' = id)) as [<-|Hne].
        -- by rewrite lookup_insert_eq in Hl.
        -- rewrite lookup_insert_ne in Hl by done. by apply IH.
      * subst r. intros <-. by rewrite lookup_insert_eq in Hl.
    + intros Hall. rewrite lookup_insert_ne.
      * apply IH. intros r Hr. apply Hall, elem_of_app. by left.
      * apply Hall, elem_of_app. right. by apply list_elem_of_singleton.
Qed.

Lemma Forall2_fmap_self {A B} (P : A → B → Prop) (f : A → B) l :
  (∀ x, P x (f x)) → Forall2 P l (f <$> l).
Proof. intros HP. induction l; constructor; auto. Qed.

(** ** The loop that computes a bounding box *)

Section bounds_loop.
Variable proj : Bounds → float.
Variable coord : SolarSystem.t → float.

Section lower.
Hypothesis step_min : ∀ b s,
  proj (bounds_step b s)
  = if (coord s <? proj b)%float then coord s else proj b.

Lemma foldl_min l b :
  let r := proj (foldl bounds_step b l) in
  (r = proj b ∨ r ∈ coord <$> l)
  ∧ (∀ y, (y <? proj b)%float = false → (y <? r)%float = false)
  ∧ (∀ x, x ∈ coord <$> l → (x <? r)%float = false).
Proof.
  revert b. induction l as [|s l IH]; intros b; cbn [foldl].
  - split; [by left|]. split; [done|]. intros x Hx.
    by apply elem_of_nil in Hx.
  - destruct (IH (bounds_step b s)) as (Hin & Hmono & Hall).
    rewrite step_min in Hin, Hmono.
    assert (∀ y, (y <? proj b)%float = false →
                 (y <? (if (coord s <? proj b)%float
                        then coord s else proj b))%float = false) as Hb.
    { intros y Hy. destruct (coord s <? proj b)%float eqn:Hs; [|done].
      destruct (y <? coord s)%float eqn:Hys; [|done].
      by rewrite (ltb_trans _ _ _ Hys Hs) in Hy. }
    split; [|split].
    + rewrite fmap_cons. destruct Hin as [->|Hin].
      * destruct (coord s <? proj b)%float; [right; left|by left].
      * right. by right.
    + intros y Hy. by apply Hmono, Hb.
    + intros x. rewrite fmap_cons.
      intros [->|Hx]%elem_of_cons; [|by apply Hall].
      apply Hmono. destruct (coord s <? proj b)%float eqn:Hs; [|done].
      apply ltb_irrefl.
Qed.
End lower.

Section upper.
Hypothesis step_max : ∀ b s,
  proj (bounds_step b s)
  = if (proj b <? coord s)%float then coord s else proj b.

Lemma foldl_max l b :
  let r := proj (foldl bounds_step b l) in
  (r = proj b ∨ r ∈ coord <$> l)
  ∧ (∀ y, (proj b <? y)%float = false → (r <? y)%float = false)
  ∧ (∀ x, x ∈ coord <$> l → (r <? x)%float = false).
Proof.
  revert b. induction l as [|s l IH]; intros b; cbn [foldl].
  - split; [by left|]. split; [done|]. intros x Hx.
    by apply elem_of_nil in Hx.
  - destruct (IH (bounds_step b s)) as (Hin & Hmono & Hall).
    rewrite step_max in Hin, Hmono.
    assert (∀ y, (proj b <? y)%float = false →
                 ((if (proj b <? coord s)%float
                   then coord s else proj b) <? y)%float = false) as Hb.
    { intros y Hy. destruct (proj b <? coord s)%float eqn:Hs; [|done].
      destruct (coord s <? y)%float eqn:Hys; [|done].
      by rewrite (ltb_trans _ _ _ Hs Hys) in Hy. }
    split; [|split].
    + rewrite fmap_cons. destruct Hin as [->|Hin].
      * destruct (proj b <? coord s)%float; [right; left|by left].
      * right. by right.
    + intros y Hy. by apply Hmono, Hb.
    + intros x. rewrite fmap_cons.
      intros [->|Hx]%elem_of_cons; [|by apply Hall].
      apply Hmono. destruct (proj b <? coord s)%float eqn:Hs; [|done].
      apply ltb_irrefl.
Qed.
End upper.
End bounds_loop.

Lemma is_min_of_intro m l :
  m ∈ l → (∀ x, x ∈ l → (x <? m)%float = false) → is_min_of m l.
Proof.
  intros Hm Hall. split; [done|]. split; [done|].
  intros Hnan x Hx. apply ltb_false_leb; auto.
Qed.

Lemma is_max_of_intro m l :
  m ∈ l → (∀ x, x ∈ l → (m <? x)%float = false) → is_max_of m l.
Proof.
  intros Hm Hall. split; [done|]. split; [done|].
  intros Hnan x Hx. apply ltb_false_leb; auto.
Qed.

Lemma bounds_of_None sysList : bounds_of sysList = None ↔ sysList = [].
Proof. by destruct sysList. Qed.

Lemma foldl_is_min proj coord s0 l :
  (∀ b s, proj (bounds_step b s)
          = if (coord s <? proj b)%float then coord s else proj b) →
  proj (bounds_init s0) = coord s0 →
  is_min_of (proj (foldl bounds_step (bounds_init s0) (s0 :: l)))
            (coord <$> s0 :: l).
Proof.
  intros Hstep Hinit.
  destruct (foldl_min proj coord Hstep (s0 :: l) (bounds_init s0))
    as (Hin & _ & Hall).
  apply is_min_of_intro; [|done].
  destruct Hin as [->|Hin]; [|done]. rewrite Hinit. by left.
Qed.

Lemma foldl_is_max proj coord s0 l :
  (∀ b s, proj (bounds_step b s)
          = if (proj b <? coord s)%float then coord s else proj b) →
  proj (bounds_init s0) = coord s0 →
  is_max_of (proj (foldl bounds_step (bounds_init s0) (s0 :: l)))
            (coord <$> s0 :: l).
Proof.
  intros Hstep Hinit.
  destruct (foldl_max proj coord Hstep (s0 :: l) (bounds_init s0))
    as (Hin & _ & Hall).
  apply is_max_of_intro; [|done].
  destruct Hin as [->|Hin]; [|done]. rewrite Hinit. by left.
Qed.

Lemma bounds_of_box sysList b : bounds_of sysList = Some b → box_of b sysList.
Proof.
  destruct sysList as [|s0 l]; [done|]. intros [= <-].
  unfold box_of. split_and!.
  - by apply foldl_is_min with (proj := minX) (coord := SolarSystem.X).
  - by apply foldl_is_max with (proj := maxX) (coord := SolarSystem.X).
  - by apply foldl_is_min with (proj := minY) (coord := SolarSystem.Y).
  - by apply foldl_is_max with (proj := maxY) (coord := SolarSystem.Y).
  - by apply foldl_is_min with (proj := minZ) (coord := SolarSystem.Z).
  - by apply foldl_is_max with (proj := maxZ) (coord := SolarSystem.Z).
Qed.

Lemma bounds_of_single c : bounds_of [c] = Some (bounds_init c).
Proof.
  cbn [bounds_of foldl]. unfold bounds_step, bounds_init.
  cbn [minX maxX minY maxY minZ maxZ].
  by rewrite !ltb_irrefl.
Qed.

(** ** The set of canonical pairs *)

Lemma gate_pair_Some data p :
  gate_pair data = Some p ↔
  gate_from data ≠ 0 ∧ gate_to data ≠ 0
  ∧ p = (Z.min (gate_from data) (gate_to data),
         Z.max (gate_from data) (gate_to data)).
Proof.
  unfold gate_pair.
  set (a := gate_from data). set (b := gate_to data).
  case_bool_decide as Hz.
  - split; [done|]. intros (? & ? & _). lia.
  - destruct (Z.ltb_spec a b).
    + rewrite Z.min_l, Z.max_r by lia. split.
      * intros [= <-]. repeat split; lia.
      * by intros (_ & _ & ->).
    + rewrite Z.min_r, Z.max_l by lia. split.
      * intros [= <-]. repeat split; lia.
      * by intros (_ & _ & ->).
Qed.

Lemma gate_pair_None data :
  gate_pair data = None ↔ gate_from data = 0 ∨ gate_to data = 0.
Proof.
  unfold gate_pair. case_bool_decide as Hz; [done|].
  split; [|done]. by destruct (_ <? _).
Qed.

Lemma elem_of_jumpSet_of rawStargates p :
  p ∈ jumpSet_of rawStargates ↔
  ∃ id data, rawStargates !! id = Some data ∧ gate_pair data = Some p.
Proof.
  unfold jumpSet_of.
  apply (map_fold_weak_ind (λ (r : gset (Z * Z)) (m : gmap Z SDEMapStargate.t),
           p ∈ r ↔ ∃ id data, m !! id = Some data ∧ gate_pair data = Some p)).
  - split; [set_solver|]. intros (id & data & Hl & _).
    by rewrite lookup_empty in Hl.
  - intros i x m r Hi IH.
    assert ((∃ id data, <[i:=x]> m !! id = Some data ∧ gate_pair data = Some p)
            ↔ gate_pair x = Some p
              ∨ ∃ id data, m !! id = Some data ∧ gate_pair data = Some p) as ->.
    { split.
      - intros (id & data & Hl & Hp).
        destruct (decide (i = id)) as [->|Hne].
        + rewrite lookup_insert_eq in Hl. injection Hl as ->. by left.
        + rewrite lookup_insert_ne in Hl by done. right. eauto.
      - intros [Hp|(id & data & Hl & Hp)].
        + exists i, x. by rewrite lookup_insert_eq.
        + exists id, data. split; [|done].
          rewrite lookup_insert_ne; [done|]. intros ->. congruence. }
    destruct (gate_pair x) as [q|] eqn:Hq.
    + rewrite elem_of_union, elem_of_singleton, IH.
      split; (intros [H|H]; [left; congruence|by right]).
    + rewrite IH. split; [by right|]. by intros [?|?].
Qed.

(** ** The stages of bounds.go, record by record *)

Lemma Region_set_bounds_id r : Region.set_bounds (Region.bounds r) r = r.
Proof. by destruct r. Qed.

Lemma Constellation_set_bounds_id c :
  Constellation.set_bounds (Constellation.bounds c) c = c.
Proof. by destruct c. Qed.

Lemma SolarSystem_set_FactionID_id s :
  SolarSystem.set_FactionID (SolarSystem.FactionID s) s = s.
Proof. by destruct s. Qed.

Lemma CalculateRegionBounds_spec regions systems :
  Forall2 (region_bounds_spec systems)
          regions (CalculateRegionBounds regions systems).
Proof.
  unfold CalculateRegionBounds. apply Forall2_fmap_self. intros r.
  unfold region_bounds_spec, region_members.
  rewrite systems_by_lookup.
  set (children := filter _ systems).
  destruct (bounds_of children) as [b|] eqn:Hb.
  - pose proof (bounds_of_box _ _ Hb) as Hbox.
    assert (children ≠ []) as Hne by (intros Hnil; by rewrite Hnil in Hb).
    split; [by destruct r, b|]. split; [done|]. split.
    + intros _. by destruct b.
    + intros c Hc. rewrite Hc, bounds_of_single in Hb.
      injection Hb as <-. reflexivity.
  - apply bounds_of_None in Hb.
    split; [by rewrite Region_set_bounds_id|]. split; [done|]. split; [done|].
    intros c Hc. by rewrite Hc in Hb.
Qed.

Lemma CalculateConstellationBounds_spec constellations systems :
  Forall2 (constellation_bounds_spec systems)
          constellations (CalculateConstellationBounds constellations systems).
Proof.
  unfold CalculateConstellationBounds. apply Forall2_fmap_self. intros c.
  unfold constellation_bounds_spec, constellation_members.
  rewrite systems_by_lookup.
  set (children := filter _ systems).
  destruct (bounds_of children) as [b|] eqn:Hb.
  - pose proof (bounds_of_box _ _ Hb) as Hbox.
    assert (children ≠ []) as Hne by (intros Hnil; by rewrite Hnil in Hb).
    split; [by destruct c, b|]. split; [done|]. split.
    + intros _. by destruct b.
    + intros s Hs. rewrite Hs, bounds_of_single in Hb.
      injection Hb as <-. reflexivity.
  - apply bounds_of_None in Hb.
    split; [by rewrite Constellation_set_bounds_id|]. split; [done|]. split; [done|].
    intros s Hs. by rewrite Hs in Hb.
Qed.

Lemma InheritFactionIDs_spec systems regions :
  Forall2 (inherit_spec regions) systems (InheritFactionIDs systems regions).
Proof.
  unfold InheritFactionIDs. apply Forall2_fmap_self. intros s.
  unfold inherit_spec.
  destruct (SolarSystem.FactionID s) as [own|] eqn:Hown.
  { split; [by rewrite SolarSystem_set_FactionID_id|].
    split; [done|]. split; [done|]. done. }
  destruct (regionFactions regions !! SolarSystem.RegionID s)
    as [[val|]|] eqn:Hl.
  - apply regionFactions_Some in Hl as (r0 & Hr0 & Hid & Hf).
    split; [by destruct s|]. split; [by intros [? [=]]|]. split.
    + intros Hnone. by destruct (Hnone r0 Hr0).
    + intros _ f _ Hall. rewrite (Hall r0 Hr0 Hid) in Hf.
      injection Hf as ->. by destruct s.
  - apply regionFactions_Some in Hl as (r0 & Hr0 & Hid & Hf).
    split; [by rewrite SolarSystem_set_FactionID_id|].
    split; [done|]. split; [done|].
    intros _ f _ Hall. by rewrite (Hall r0 Hr0 Hid) in Hf.
  - rewrite regionFactions_None in Hl.
    split; [by rewrite SolarSystem_set_FactionID_id|].
    split; [done|]. split; [done|].
    intros _ f (r0 & Hr0 & Hid) _. by destruct (Hl r0 Hr0).
Qed.

(** ** Enrichment of one jump *)

Lemma enrich_enriched_from systems j :
  enriched_from systems j (enrich (systemLookup systems) j).
Proof.
  unfold enriched_from. split; [done|].
  exists (systemLookup systems !! SystemJump.FromSolarSystemID j),
         (systemLookup systems !! SystemJump.ToSolarSystemID j).
  split_and!.
  - destruct (systemLookup systems !! _) eqn:Hl; cbn [resolves].
    + by apply systemLookup_Some.
    + by apply systemLookup_None.
  - destruct (systemLookup systems !! SystemJump.ToSolarSystemID j) eqn:Hl;
      cbn [resolves].
    + by apply systemLookup_Some.
    + by apply systemLookup_None.
  - unfold enrich. cbn. by destruct (systemLookup systems !! _).
  - unfold enrich. cbn. by destruct (systemLookup systems !! _).
  - unfold enrich. cbn.
    by destruct (systemLookup systems !! SystemJump.ToSolarSystemID j).
  - unfold enrich. cbn.
    by destruct (systemLookup systems !! SystemJump.ToSolarSystemID j).
Qed.

Lemma NoDup_all_eq {A} (l : list A) a :
  NoDup l → (∀ x, x ∈ l ↔ x = a) → l = [a].
Proof.
  intros Hnd Hall. destruct l as [|x [|y l]].
  - by destruct (not_elem_of_nil a); apply Hall.
  - f_equal. apply Hall. by left.
  - assert (x = a) as -> by (apply Hall; by left).
    assert (y = a) as -> by (apply Hall; right; by left).
    apply NoDup_cons in Hnd as [Hnin _]. destruct Hnin. by left.
Qed.

Lemma float_neq (x y : float) : Prim2SF x ≠ Prim2SF y → x ≠ y.
Proof. by intros Hne ->. Qed.

Lemma len_nil_iff {A} (l : list A) : (len l =? 0) = true ↔ l = [].
Proof.
  unfold len. destruct l; [done|]. split; [|done].
  intros H%Z.eqb_eq. cbn in H. lia.
Qed.

(** * The claims of the specification *)


(** C3. [GetTrueSecurity] returns exactly 0.1 for every [r] with
    [0 < r < 0.05], and [GetTrueSecurity 0.9459 = 0.9],
    [GetTrueSecurity 0.04 = 0.1], [GetTrueSecurity (-1.0) = -1.0]. *)
Theorem GetTrueSecurity_display_values :
  (∀ r : float,
     (0 <? r)%float = true → (r <? 0.05)%float = true →
     GetTrueSecurity r = 0.1%float)
  ∧ GetTrueSecurity 0.9459 = 0.9%float
  ∧ GetTrueSecurity 0.04 = 0.1%float
  ∧ GetTrueSecurity (-1.0) = (-1.0)%float.
Proof.
  split; [exact GetTrueSecurity_low|].
  split; [|split]; vm_compute; reflexivity.
Qed.

Lemma GetTrueSecurity_display_values_witness :
  GetTrueSecurity 0.03 = 0.1%float.
Proof.
  apply (proj1 GetTrueSecurity_display_values); reflexivity.
Defined.

(** C2. [ParseStargates] discards every gate record with a zero endpoint,
    turns each remaining record into the pair (smaller ID, larger ID) and
    keeps each pair once: the output jumps are exactly the canonical pairs
    of the records without a zero endpoint, their endpoint pairs are
    pairwise distinct, every jump has [From <= To], and the two records
    [A -> B] and [B -> A] alone give the single jump
    [(min A B, max A B)]. *)
Theorem ParseStargates_canonical_set (rawStargates : gmap Z SDEMapStargate.t) :
  ∃ jumps,
    ParseStargates (Ok rawStargates) = Ok jumps
    ∧ (∀ j, j ∈ jumps ↔
         ∃ id data,
           rawStargates !! id = Some data
           ∧ gate_from data ≠ 0 ∧ gate_to data ≠ 0
           ∧ j = SystemJump.mk 0 0 (Z.min (gate_from data) (gate_to data))
                                   (Z.max (gate_from data) (gate_to data)) 0 0)
    ∧ NoDup (SystemJump.endpoints <$> jumps)
    ∧ Forall (λ j, SystemJump.FromSolarSystemID j ≤ SystemJump.ToSolarSystemID j)
             jumps
    ∧ (∀ i1 i2 d1 d2 A B,
         rawStargates = <[i1 := d1]> {[i2 := d2]} → i1 ≠ i2 →
         A ≠ 0 → B ≠ 0 →
         gate_from d1 = A → gate_to d1 = B →
         gate_from d2 = B → gate_to d2 = A →
         jumps = [SystemJump.mk 0 0 (Z.min A B) (Z.max A B) 0 0]).
Proof.
  eexists. split; [reflexivity|].
  set (mk := λ p : Z * Z, SystemJump.mk 0 0 p.1 p.2 0 0).
  set (jumps := sort.Slice jump_less (mk <$> elements (jumpSet_of rawStargates))).
  assert (∀ j, j ∈ jumps ↔
            ∃ id data,
              rawStargates !! id = Some data
              ∧ gate_from data ≠ 0 ∧ gate_to data ≠ 0
              ∧ j = SystemJump.mk 0 0 (Z.min (gate_from data) (gate_to data))
                      (Z.max (gate_from data) (gate_to data)) 0 0) as Hmem.
  { intros j. unfold jumps. rewrite elem_of_Slice, list_elem_of_fmap. split.
    - intros (p & -> & Hp). apply elem_of_elements, elem_of_jumpSet_of in Hp
        as (id & data & Hl & (Hf & Ht & ->)%gate_pair_Some).
      exists id, data. done.
    - intros (id & data & Hl & Hf & Ht & ->).
      exists (Z.min (gate_from data) (gate_to data),
              Z.max (gate_from data) (gate_to data)).
      split; [done|]. apply elem_of_elements, elem_of_jumpSet_of.
      exists id, data. split; [done|]. by apply gate_pair_Some. }
  assert (NoDup (SystemJump.endpoints <$> jumps)) as Hnd.
  { unfold jumps. rewrite Slice_Permutation.
    assert (∀ l, SystemJump.endpoints <$> (mk <$> l) = l) as ->.
    { induction l as [|[] l IH]; [done|]. rewrite !fmap_cons, IH. done. }
    apply NoDup_elements. }
  split; [done|]. split; [done|]. split.
  - apply Forall_forall. intros j (id & data & _ & _ & _ & ->)%Hmem. cbn. lia.
  - intros i1 i2 d1 d2 A B -> Hi HA HB Hf1 Ht1 Hf2 Ht2.
    apply NoDup_all_eq; [by apply NoDup_fmap_1 in Hnd|].
    intros j. rewrite Hmem. split.
    + intros (id & data & Hl & _ & _ & ->).
      apply lookup_insert_Some in Hl as [[_ <-]|[_ Hl]].
      * by rewrite Hf1, Ht1.
      * apply lookup_singleton_Some in Hl as [_ <-].
        rewrite Hf2, Ht2. f_equal; lia.
    + intros ->. exists i1, d1. rewrite lookup_insert_eq, Hf1, Ht1. done.
Qed.

Lemma ParseStargates_canonical_set_witness :
  ParseStargates
    (Ok (<[50000001 := sample.gate 30000142 30000001 50000002]>
           {[ 50000002 := sample.gate 30000001 30000142 50000001 ]}))
  = Ok [sample.jump 30000001 30000142].
Proof.
  destruct (ParseStargates_canonical_set
              (<[50000001 := sample.gate 30000142 30000001 50000002]>
                 {[ 50000002 := sample.gate 30000001 30000142 50000001 ]}))
    as (jumps & -> & _ & _ & _ & Hpair).
  f_equal.
  apply (Hpair 50000001 50000002 (sample.gate 30000142 30000001 50000002)
               (sample.gate 30000001 30000142 50000001) 30000142 30000001);
    (reflexivity || discriminate).
Defined.

(** C4, as stated, fails: [Transform] sorts the regions and rewrites the
    security of the systems, and calls neither [CalculateRegionBounds] nor
    [InheritFactionIDs].  For the sample parse result the region keeps its
    parsed all-zero bounds although its member system lies at (5, 6, 7),
    and the system keeps its missing faction ID although its region
    carries one. *)
Lemma Transform_skips_bounds_and_factions :
  ∃ out, Transform sample.parse_result = Ok out
         ∧ ¬ regions_boxed out ∧ ¬ factions_inherited out.
Proof.
  eexists. split; [reflexivity|]. split.
  - intros Hbox. specialize (Hbox sample.the_forge).
    destruct Hbox as ((Hin & _) & _).
    + by left.
    + vm_compute. discriminate.
    + vm_compute in Hin. apply list_elem_of_singleton in Hin.
      revert Hin. apply float_neq. vm_compute. discriminate.
  - intros Hinh.
    destruct (Hinh (SolarSystem.set_Security
                      (GetTrueSecurity (SolarSystem.Security sample.jita))
                      sample.jita) sample.the_forge) as [f Hf].
    + by left.
    + by left.
    + reflexivity.
    + by eexists.
    + discriminate Hf.
Qed.

(** C4, amended. [Transform] applies neither the Geometry Aggregator nor
    Faction Inheritance: its regions and constellations are the parsed
    ones, rearranged and otherwise unchanged (bounding boxes as parsed),
    and its systems are the parsed ones with only the security replaced
    (faction IDs as parsed).  The two stages are separate functions: run on
    Transform's regions and systems, [CalculateRegionBounds] gives every
    region with at least one member system the box of those members, and
    [InheritFactionIDs] gives every system without a faction ID the
    faction ID its region carries. *)
Theorem Transform_leaves_bounds_and_factions (parseResult : ParseResult) :
  ∃ out,
    Transform parseResult = Ok out
    ∧ Regions (Universe out) ≡ₚ pr_Regions parseResult
    ∧ Constellations (Universe out) ≡ₚ pr_Constellations parseResult
    ∧ SolarSystems (Universe out)
      ≡ₚ (λ s, SolarSystem.set_Security
                 (GetTrueSecurity (SolarSystem.Security s)) s)
         <$> pr_SolarSystems parseResult
    ∧ Forall2 (region_bounds_spec (SolarSystems (Universe out)))
        (Regions (Universe out))
        (CalculateRegionBounds (Regions (Universe out))
                               (SolarSystems (Universe out)))
    ∧ Forall2 (inherit_spec (Regions (Universe out)))
        (SolarSystems (Universe out))
        (InheritFactionIDs (SolarSystems (Universe out))
                           (Regions (Universe out))).
Proof.
  eexists. split; [reflexivity|]. cbn [Universe Regions Constellations SolarSystems].
  split; [apply Slice_Permutation|].
  split; [apply Slice_Permutation|].
  split; [apply Slice_Permutation|].
  split; [apply CalculateRegionBounds_spec|apply InheritFactionIDs_spec].
Qed.

(** C5. [CalculateRegionBounds] and [CalculateConstellationBounds] set the
    six bound fields of every parent to the componentwise minimum and
    maximum of the coordinates of exactly the systems whose foreign key is
    the parent's ID; a parent without such a system is left as it was; a
    parent with exactly one child at (x, y, z) gets min = max = (x, y, z);
    no other field of a parent changes. *)
Theorem bounds_are_the_box_of_the_children
    (regions : list Region.t) (constellations : list Constellation.t)
    (systems : list SolarSystem.t) :
  Forall2 (λ r r',
      let children := region_members (Region.RegionID r) systems in
      r' = Region.set_bounds (Region.bounds r') r
      ∧ (children = [] → r' = r)
      ∧ (children ≠ [] → box_of (Region.bounds r') children)
      ∧ (∀ c, children = [c] →
              Region.bounds r'
              = mkBounds (SolarSystem.X c) (SolarSystem.X c)
                         (SolarSystem.Y c) (SolarSystem.Y c)
                         (SolarSystem.Z c) (SolarSystem.Z c)))
    regions (CalculateRegionBounds regions systems)
  ∧ Forall2 (λ c c',
      let children :=
        constellation_members (Constellation.ConstellationID c) systems in
      c' = Constellation.set_bounds (Constellation.bounds c') c
      ∧ (children = [] → c' = c)
      ∧ (children ≠ [] → box_of (Constellation.bounds c') children)
      ∧ (∀ s, children = [s] →
              Constellation.bounds c'
              = mkBounds (SolarSystem.X s) (SolarSystem.X s)
                         (SolarSystem.Y s) (SolarSystem.Y s)
                         (SolarSystem.Z s) (SolarSystem.Z s)))
    constellations (CalculateConstellationBounds constellations systems).
Proof.
  split.
  - apply (CalculateRegionBounds_spec regions systems).
  - apply (CalculateConstellationBounds_spec constellations systems).
Qed.

(** C6. In [transformSystemJumps] every input edge has an output edge with
    the same endpoints in which each side carries the region and
    constellation of a system of the collection with that endpoint's ID,
    or zeros when the collection has no system with that ID; no edge is
    lost, and [Transform] returns these edges without an error. *)
Theorem enrichment_tolerates_dangling_endpoints
    (jumps : list SystemJump.t) (systems : list SolarSystem.t) :
  Forall (λ j, ∃ e, e ∈ transformSystemJumps jumps systems
                    ∧ enriched_from systems j e) jumps
  ∧ length (transformSystemJumps jumps systems) = length jumps
  ∧ ∀ parseResult,
      pr_SystemJumps parseResult = jumps →
      ∃ out, Transform parseResult = Ok out
             ∧ length (SystemJumps out) = length jumps.
Proof.
  unfold transformSystemJumps. split; [|split].
  - apply Forall_forall. intros j Hj.
    exists (enrich (systemLookup systems) j). split.
    + apply elem_of_Slice. by apply list_elem_of_fmap_2.
    + apply enrich_enriched_from.
  - by rewrite Slice_length, length_fmap.
  - intros parseResult <-. eexists. split; [reflexivity|].
    cbn [SystemJumps]. unfold transformSystemJumps.
    by rewrite Slice_length, length_fmap.
Qed.

(** C10. [transformSystemJumps] emits exactly one output edge per input
    edge with the same two endpoint IDs: the endpoint pairs of the output
    are a rearrangement of those of the input. *)
Theorem transformSystemJumps_keeps_edges
    (jumps : list SystemJump.t) (systems : list SolarSystem.t) :
  length (transformSystemJumps jumps systems) = length jumps
  ∧ SystemJump.endpoints <$> transformSystemJumps jumps systems
    ≡ₚ SystemJump.endpoints <$> jumps.
Proof.
  unfold transformSystemJumps. split.
  - by rewrite Slice_length, length_fmap.
  - rewrite Slice_Permutation.
    induction jumps as [|j jumps IH]; [done|].
    rewrite !fmap_cons. by constructor.
Qed.

(** C7. Every collection of [Transform]'s output is sorted: regions,
    constellations, solar systems, types, groups and wormhole class
    locations ascending by ID, jumps by from system ID and then to system
    ID; each element's key is at most its successor's. *)
Theorem Transform_output_sorted (parseResult : ParseResult) :
  ∃ out,
    Transform parseResult = Ok out
    ∧ Sorted (λ a b, Region.RegionID a ≤ Region.RegionID b)
             (Regions (Universe out))
    ∧ Sorted (λ a b, Constellation.ConstellationID a
                     ≤ Constellation.ConstellationID b)
             (Constellations (Universe out))
    ∧ Sorted (λ a b, SolarSystem.SolarSystemID a ≤ SolarSystem.SolarSystemID b)
             (SolarSystems (Universe out))
    ∧ Sorted (λ a b, InvType.TypeID a ≤ InvType.TypeID b) (InvTypes out)
    ∧ Sorted (λ a b, InvGroup.GroupID a ≤ InvGroup.GroupID b) (InvGroups out)
    ∧ Sorted (λ a b, WormholeClassLocation.LocationID a
                     ≤ WormholeClassLocation.LocationID b)
             (WormholeClasses out)
    ∧ Sorted jump_le (SystemJumps out).
Proof.
  eexists. split; [reflexivity|].
  cbn [Universe Regions Constellations SolarSystems InvTypes InvGroups
       WormholeClasses SystemJumps].
  split_and!; try apply Slice_Sorted_key. apply Slice_Sorted_jumps.
Qed.

(** The errors of [Validate]: one message per empty foundational
    collection. *)
Lemma Validate_errors_aux (data : ConvertedData) :
  ValidationResult.Errors (Validate data)
  = (if decide (SolarSystems (Universe data) = [])
     then ["No solar systems found"] else [])
    ++ (if decide (Regions (Universe data) = [])
        then ["No regions found"] else [])
    ++ (if decide (Constellations (Universe data) = [])
        then ["No constellations found"] else []).
Proof.
  destruct data as [[regions constellations systems] ? ? ? ?].
  cbn [Validate ValidationResult.Errors Universe Regions Constellations
       SolarSystems].
  unfold append_if.
  by destruct systems, regions, constellations.
Qed.

(** C8. [Validate] always returns a result with a warnings list and an
    errors list.  The errors are one message per empty foundational
    collection (solar systems, regions, constellations, in this order) and
    nothing else, so the list is non-empty exactly when one of the three
    is empty. *)
Theorem Validate_errors (data : ConvertedData) :
  let v := Validate data in
  ValidationResult.Errors v
  = (if decide (SolarSystems (Universe data) = [])
     then ["No solar systems found"] else [])
    ++ (if decide (Regions (Universe data) = [])
        then ["No regions found"] else [])
    ++ (if decide (Constellations (Universe data) = [])
        then ["No constellations found"] else [])
  ∧ (ValidationResult.Errors v ≠ [] ↔
       Regions (Universe data) = []
       ∨ Constellations (Universe data) = []
       ∨ SolarSystems (Universe data) = []).
Proof.
  cbn zeta. rewrite Validate_errors_aux.
  split; [done|].
  destruct (SolarSystems (Universe data)), (Regions (Universe data)),
    (Constellations (Universe data)); cbn;
    (split; [intros Hne; try (by destruct Hne); auto
            |intros [?|[?|?]]; done]).
Qed.

(** C9, as stated, fails: the groups and the wormhole class locations have
    no expected minimum.  The sample dataset has neither groups nor
    wormhole classes and gets no warning, so no positive minimum makes
    [Validate] warn about a count below it on these two collections. *)
Lemma Validate_no_minimum_for_groups :
  ¬ (∃ min, 0 < min ∧ warns_below (λ data, len (InvGroups data)) min)
  ∧ ¬ (∃ min, 0 < min ∧ warns_below (λ data, len (WormholeClasses data)) min).
Proof.
  split; intros (min & Hmin & Hwarn);
    apply (Hwarn sample.full_data); [done| |done|]; vm_compute; reflexivity.
Qed.

(** C9, amended. [Validate] compares the counts of five collections with
    fixed minimums (solar systems 8000, regions 100, constellations 1000,
    types 30000, system jumps 10000) and appends, in this order and
    without stopping at the first, one warning with the actual and the
    expected count for each count below its minimum; groups and wormhole
    class locations are counted and never warned about.  Warnings do not
    make the result invalid: it is valid whenever the three foundational
    collections are non-empty. *)
Theorem Validate_warnings (data : ConvertedData) :
  let v := Validate data in
  let warning what n min :=
    if n <? min
    then [what +:+ " count (" +:+ strconv.FormatInt n
               +:+ ") is below expected minimum ("
               +:+ strconv.FormatInt min +:+ ")"]
    else [] in
  ValidationResult.Warnings v
  = warning "Solar system" (len (SolarSystems (Universe data))) 8000
    ++ warning "Region" (len (Regions (Universe data))) 100
    ++ warning "Constellation" (len (Constellations (Universe data))) 1000
    ++ warning "Type" (len (InvTypes data)) 30000
    ++ warning "System jump" (len (SystemJumps data)) 10000
  ∧ ValidationResult.InvGroups v = len (InvGroups data)
  ∧ ValidationResult.WormholeClasses v = len (WormholeClasses data)
  ∧ (SolarSystems (Universe data) ≠ [] → Regions (Universe data) ≠ [] →
     Constellations (Universe data) ≠ [] →
     ValidationResult.IsValid v = true).
Proof.
  cbn zeta. split; [|split; [done|split; [done|]]].
  - cbn [Validate ValidationResult.Warnings]. unfold append_if, below_minimum.
    change minSolarSystems with 8000. change minRegions with 100.
    change minConstellations with 1000. change minTypes with 30000.
    change minSystemJumps with 10000.
    destruct (len (SolarSystems (Universe data)) <? 8000),
      (len (Regions (Universe data)) <? 100),
      (len (Constellations (Universe data)) <? 1000),
      (len (InvTypes data) <? 30000),
      (len (SystemJumps data) <? 10000); reflexivity.
  - intros Hs Hr Hc. unfold ValidationResult.IsValid.
    rewrite Validate_errors_aux. by rewrite !decide_False.
Qed.

(** * Further properties of the code *)

(** ** More facts about binary64 comparison *)

Lemma SFleb_antisym x y :
  SFleb x y = true → SFleb y x = true → SFeqb x y = true.
Proof.
  unfold SFleb, SFeqb, SFcompare.
  destruct x as [[]|[]| |[] mx ex], y as [[]|[]| |[] my ey];
    try (intros; discriminate || reflexivity);
    change (Pos.compare_cont Eq) with Pos.compare;
    destruct (Z.compare_spec ex ey), (Z.compare_spec ey ex);
    try lia; try (intros; discriminate || reflexivity);
    destruct (Pos.compare_spec mx my), (Pos.compare_spec my mx);
    try lia; intros; discriminate || reflexivity.
Qed.

Lemma leb_antisym (x y : float) :
  (x <=? y)%float = true → (y <=? x)%float = true → (x =? y)%float = true.
Proof. rewrite !leb_spec, FloatAxioms.eqb_spec. apply SFleb_antisym. Qed.

(** ** bounds.go *)

Lemma filter_Permutation_nil {A} (P : A → Prop) `{∀ x, Decision (P x)} l k :
  l ≡ₚ k → filter P l = [] → filter P k = [].
Proof.
  intros Hp Hl. apply Permutation_nil_r. by rewrite <- Hp, Hl.
Qed.

Lemma box_inside b children s :
  box_of b children → Forall position_defined children → s ∈ children →
  inside b s.
Proof.
  intros (HminX & HmaxX & HminY & HmaxY & HminZ & HmaxZ) Hdef Hs.
  rewrite Forall_forall in Hdef.
  assert (∀ coord : SolarSystem.t → float,
            (∀ c, position_defined c → is_nan (coord c) = false) →
            ∀ x, x ∈ coord <$> children → is_nan x = false) as Hnan.
  { intros coord Hc x (c & -> & Hin)%list_elem_of_fmap. auto. }
  unfold inside. split_and!.
  - apply HminX; [apply Hnan; by intros ? (?&?&?)|by apply list_elem_of_fmap_2].
  - apply HmaxX; [apply Hnan; by intros ? (?&?&?)|by apply list_elem_of_fmap_2].
  - apply HminY; [apply Hnan; by intros ? (?&?&?)|by apply list_elem_of_fmap_2].
  - apply HmaxY; [apply Hnan; by intros ? (?&?&?)|by apply list_elem_of_fmap_2].
  - apply HminZ; [apply Hnan; by intros ? (?&?&?)|by apply list_elem_of_fmap_2].
  - apply HmaxZ; [apply Hnan; by intros ? (?&?&?)|by apply list_elem_of_fmap_2].
Qed.

Lemma box_well_formed b children :
  box_of b children → Forall position_defined children → well_formed b.
Proof.
  intros (HminX & HmaxX & HminY & HmaxY & HminZ & HmaxZ) Hdef.
  rewrite Forall_forall in Hdef.
  assert (∀ coord : SolarSystem.t → float,
            (∀ c, position_defined c → is_nan (coord c) = false) →
            ∀ x, x ∈ coord <$> children → is_nan x = false) as Hnan.
  { intros coord Hc x (c & -> & Hin)%list_elem_of_fmap. auto. }
  unfold well_formed. split_and!.
  - apply HminX; [apply Hnan; by intros ? (?&?&?)|apply HmaxX].
  - apply HminY; [apply Hnan; by intros ? (?&?&?)|apply HmaxY].
  - apply HminZ; [apply Hnan; by intros ? (?&?&?)|apply HmaxZ].
Qed.

(** X1. When no coordinate is NaN, every system lies inside the box that
    [CalculateRegionBounds] gives its region, and that box is not
    inverted: min <= coordinate <= max on each axis. *)
Theorem CalculateRegionBounds_contains_members
    (regions : list Region.t) (systems : list SolarSystem.t) :
  Forall position_defined systems →
  ∀ r' s, r' ∈ CalculateRegionBounds regions systems → s ∈ systems →
          SolarSystem.RegionID s = Region.RegionID r' →
          inside (Region.bounds r') s ∧ well_formed (Region.bounds r').
Proof.
  intros Hdef r' s Hr' Hs Hid.
  pose proof (CalculateRegionBounds_spec regions systems) as Hspec.
  apply list_elem_of_lookup in Hr' as [i Hi].
  destruct (Forall2_lookup_r _ _ _ _ _ Hspec Hi) as (r & _ & Hrr').
  destruct Hrr' as (Hframe & _ & Hbox & _).
  assert (Region.RegionID r' = Region.RegionID r) as Hrid
    by (by rewrite Hframe).
  set (children := region_members (Region.RegionID r) systems) in *.
  assert (s ∈ children) as Hin.
  { apply list_elem_of_filter. split; [congruence|done]. }
  assert (children ≠ []) as Hne.
  { intros Hnil. rewrite Hnil in Hin. by apply elem_of_nil in Hin. }
  assert (Forall position_defined children) as Hdefc.
  { apply Forall_forall. intros c [_ Hc]%list_elem_of_filter.
    rewrite Forall_forall in Hdef. auto. }
  specialize (Hbox Hne).
  split; [by eapply box_inside|by eapply box_well_formed].
Qed.

Lemma CalculateRegionBounds_contains_members_witness :
  inside (Region.bounds
            (Region.set_bounds (mkBounds 5 8 2 6 7 9) sample.the_forge))
         sample.jita
  ∧ well_formed (mkBounds 5 8 2 6 7 9).
Proof.
  apply (CalculateRegionBounds_contains_members
           [sample.the_forge] [sample.jita; sample.perimeter]).
  - repeat constructor.
  - vm_compute. left.
  - left.
  - reflexivity.
Defined.

Lemma is_min_of_unique m1 m2 l1 l2 :
  l1 ≡ₚ l2 → (∀ x, x ∈ l1 → is_nan x = false) →
  is_min_of m1 l1 → is_min_of m2 l2 → (m1 =? m2)%float = true.
Proof.
  intros Hp Hnan (Hin1 & _ & Hle1) (Hin2 & _ & Hle2).
  apply leb_antisym.
  - apply Hle1; [done|]. by rewrite Hp.
  - apply Hle2; [|by rewrite <- Hp].
    intros x Hx. apply Hnan. by rewrite Hp.
Qed.

Lemma is_max_of_unique m1 m2 l1 l2 :
  l1 ≡ₚ l2 → (∀ x, x ∈ l1 → is_nan x = false) →
  is_max_of m1 l1 → is_max_of m2 l2 → (m1 =? m2)%float = true.
Proof.
  intros Hp Hnan (Hin1 & _ & Hle1) (Hin2 & _ & Hle2).
  apply leb_antisym.
  - apply Hle2; [|by rewrite <- Hp].
    intros x Hx. apply Hnan. by rewrite Hp.
  - apply Hle1; [done|]. by rewrite Hp.
Qed.

Lemma box_of_unique b1 b2 l1 l2 :
  l1 ≡ₚ l2 → Forall position_defined l1 →
  box_of b1 l1 → box_of b2 l2 → same_box b1 b2.
Proof.
  intros Hp Hdef (H1 & H2 & H3 & H4 & H5 & H6) (K1 & K2 & K3 & K4 & K5 & K6).
  rewrite Forall_forall in Hdef.
  assert (∀ coord : SolarSystem.t → float,
            (∀ c, position_defined c → is_nan (coord c) = false) →
            ∀ x, x ∈ coord <$> l1 → is_nan x = false) as Hnan.
  { intros coord Hc x (c & -> & Hin)%list_elem_of_fmap. auto. }
  assert (∀ (coord : SolarSystem.t → float) m1 m2,
            (∀ c, position_defined c → is_nan (coord c) = false) →
            is_min_of m1 (coord <$> l1) → is_min_of m2 (coord <$> l2) →
            (m1 =? m2)%float = true) as Hmin.
  { intros coord m1 m2 Hc Hm1 Hm2.
    apply (is_min_of_unique m1 m2 (coord <$> l1) (coord <$> l2));
      [by rewrite Hp|by apply Hnan|done|done]. }
  assert (∀ (coord : SolarSystem.t → float) m1 m2,
            (∀ c, position_defined c → is_nan (coord c) = false) →
            is_max_of m1 (coord <$> l1) → is_max_of m2 (coord <$> l2) →
            (m1 =? m2)%float = true) as Hmax.
  { intros coord m1 m2 Hc Hm1 Hm2.
    apply (is_max_of_unique m1 m2 (coord <$> l1) (coord <$> l2));
      [by rewrite Hp|by apply Hnan|done|done]. }
  unfold same_box. split_and!.
  - apply (Hmin SolarSystem.X); [by intros ? (?&?&?)|done|done].
  - apply (Hmax SolarSystem.X); [by intros ? (?&?&?)|done|done].
  - apply (Hmin SolarSystem.Y); [by intros ? (?&?&?)|done|done].
  - apply (Hmax SolarSystem.Y); [by intros ? (?&?&?)|done|done].
  - apply (Hmin SolarSystem.Z); [by intros ? (?&?&?)|done|done].
  - apply (Hmax SolarSystem.Z); [by intros ? (?&?&?)|done|done].
Qed.

Lemma Forall2_fmap_pair {A B} (P : B → B → Prop) (f g : A → B) l :
  (∀ x, P (f x) (g x)) → Forall2 P (f <$> l) (g <$> l).
Proof. intros HP. induction l; constructor; auto. Qed.

(** X2. The order of the systems does not matter to
    [CalculateRegionBounds]: for two arrangements of the same systems, none
    with a NaN coordinate, each region gets numerically equal bounds (and
    is left as it was when it has no system). *)
Theorem CalculateRegionBounds_order_independent
    (regions : list Region.t) (systems systems' : list SolarSystem.t) :
  systems ≡ₚ systems' → Forall position_defined systems →
  Forall2 (λ r1 r2,
             r2 = Region.set_bounds (Region.bounds r2) r1
             ∧ (r1 = r2 ∨ same_box (Region.bounds r1) (Region.bounds r2)))
          (CalculateRegionBounds regions systems)
          (CalculateRegionBounds regions systems').
Proof.
  intros Hp Hdef. unfold CalculateRegionBounds.
  apply Forall2_fmap_pair. intros r. rewrite !systems_by_lookup.
  assert (filter (λ s, SolarSystem.RegionID s = Region.RegionID r) systems
          ≡ₚ filter (λ s, SolarSystem.RegionID s = Region.RegionID r) systems')
    as Hpc by (by rewrite Hp).
  set (children := filter _ systems) in *.
  set (children' := filter _ systems') in *.
  destruct (bounds_of children) as [b|] eqn:Hb,
           (bounds_of children') as [b'|] eqn:Hb'.
  - split; [by destruct r, b'|]. right.
    replace (Region.bounds (Region.set_bounds b r)) with b by (by destruct b).
    replace (Region.bounds (Region.set_bounds b' r)) with b'
      by (by destruct b').
    eapply box_of_unique; [exact Hpc| |by apply bounds_of_box..].
    apply Forall_forall. intros c [_ Hc]%list_elem_of_filter.
    rewrite Forall_forall in Hdef. auto.
  - apply bounds_of_None in Hb'. rewrite Hb' in Hpc.
    apply Permutation_nil_r in Hpc. by rewrite Hpc in Hb.
  - apply bounds_of_None in Hb. rewrite Hb in Hpc.
    symmetry in Hpc. apply Permutation_nil_r in Hpc. by rewrite Hpc in Hb'.
  - split; [by rewrite Region_set_bounds_id|by left].
Qed.

Lemma CalculateRegionBounds_order_independent_witness :
  Forall2 (λ r1 r2,
             r2 = Region.set_bounds (Region.bounds r2) r1
             ∧ (r1 = r2 ∨ same_box (Region.bounds r1) (Region.bounds r2)))
          (CalculateRegionBounds [sample.the_forge]
                                 [sample.jita; sample.perimeter])
          (CalculateRegionBounds [sample.the_forge]
                                 [sample.perimeter; sample.jita]).
Proof.
  apply CalculateRegionBounds_order_independent.
  - apply Permutation_swap.
  - repeat constructor.
Defined.

(** X3. Computing the bounds again from the same systems changes nothing:
    [CalculateRegionBounds] and [CalculateConstellationBounds] are
    idempotent. *)
Theorem bounds_idempotent
    (regions : list Region.t) (constellations : list Constellation.t)
    (systems : list SolarSystem.t) :
  CalculateRegionBounds (CalculateRegionBounds regions systems) systems
  = CalculateRegionBounds regions systems
  ∧ CalculateConstellationBounds
      (CalculateConstellationBounds constellations systems) systems
    = CalculateConstellationBounds constellations systems.
Proof.
  unfold CalculateRegionBounds, CalculateConstellationBounds. split.
  - rewrite <- list_fmap_compose. apply list_fmap_ext. intros _ r _. cbn.
    destruct (bounds_of (default [] (_ !! Region.RegionID r))) as [b|] eqn:Hb.
    + replace (Region.RegionID (Region.set_bounds b r))
        with (Region.RegionID r) by (by destruct r).
      rewrite Hb. by destruct r.
    + by rewrite Hb.
  - rewrite <- list_fmap_compose. apply list_fmap_ext. intros _ c _. cbn.
    destruct (bounds_of (default [] (_ !! Constellation.ConstellationID c)))
      as [b|] eqn:Hb.
    + replace (Constellation.ConstellationID (Constellation.set_bounds b c))
        with (Constellation.ConstellationID c) by (by destruct c).
      rewrite Hb. by destruct c.
    + by rewrite Hb.
Qed.

(** X4. [InheritFactionIDs] is idempotent and never replaces a faction ID
    that a system already has: a second run over its own result changes
    nothing, and every system with a faction ID comes out as it went
    in. *)
Theorem InheritFactionIDs_idempotent
    (systems : list SolarSystem.t) (regions : list Region.t) :
  InheritFactionIDs (InheritFactionIDs systems regions) regions
  = InheritFactionIDs systems regions
  ∧ length (InheritFactionIDs systems regions) = length systems
  ∧ ∀ i s, systems !! i = Some s → is_Some (SolarSystem.FactionID s) →
           InheritFactionIDs systems regions !! i = Some s.
Proof.
  unfold InheritFactionIDs. split; [|split].
  - rewrite <- list_fmap_compose. apply list_fmap_ext. intros _ s _. cbn.
    destruct (SolarSystem.FactionID s) as [own|] eqn:Hown; [by rewrite Hown|].
    destruct (regionFactions regions !! SolarSystem.RegionID s)
      as [[val|]|] eqn:Hl.
    + by destruct s.
    + by rewrite Hown, Hl.
    + by rewrite Hown, Hl.
  - apply length_fmap.
  - intros i s Hi [f Hf]. rewrite list_lookup_fmap, Hi. cbn. by rewrite Hf.
Qed.

(** ** Slices built from a map and sorted by the key *)

Lemma Sorted_strict {A} (key : A → Z) l :
  Sorted (λ a b, key a ≤ key b) l → NoDup (key <$> l) →
  Sorted (λ a b, key a < key b) l.
Proof.
  induction 1 as [|x l Hs IH Hhd]; [constructor|].
  rewrite fmap_cons. intros [Hnin Hnd]%NoDup_cons.
  constructor; [auto|].
  destruct Hhd as [|y l Hxy]; constructor.
  assert (key x ≠ key y); [|lia].
  intros Heq. apply Hnin. rewrite fmap_cons, Heq. by left.
Qed.

Section from_map.
Context {V A : Type} (f : Z → V → A) (key : A → Z).
Hypothesis key_f : ∀ k v, key (f k v) = k.

Let build (m : gmap Z V) : list A :=
  sort.Slice (λ a b, key a <? key b)
             ((λ kv : Z * V, f kv.1 kv.2) <$> map_to_list m).

Lemma from_map_keys m : key <$> build m ≡ₚ (map_to_list m).*1.
Proof.
  unfold build. rewrite Slice_Permutation, <- list_fmap_compose.
  apply Permutation_refl'. apply list_fmap_ext. intros _ [k v] _. apply key_f.
Qed.

Lemma from_map_strict m : Sorted (λ a b, key a < key b) (build m).
Proof.
  apply Sorted_strict; [apply Slice_Sorted_key|].
  rewrite from_map_keys. apply NoDup_fst_map_to_list.
Qed.

Lemma from_map_elem_of m a :
  a ∈ build m ↔ ∃ k v, m !! k = Some v ∧ a = f k v.
Proof.
  unfold build. rewrite elem_of_Slice, list_elem_of_fmap. split.
  - intros ([k v] & -> & Hkv%elem_of_map_to_list). eauto.
  - intros (k & v & Hkv & ->). exists (k, v).
    split; [done|]. by apply elem_of_map_to_list.
Qed.

Lemma from_map_length m : length (build m) = size m.
Proof.
  unfold build. by rewrite Slice_length, length_fmap, length_map_to_list.
Qed.
End from_map.

(** ** transformer.go *)

(** X5. [transformTypes] and [transformGroups] emit exactly one record per
    key of their map, built from that key's entry, in strictly ascending
    order of the ID. *)
Theorem transformTypes_one_per_key
    (types : gmap Z SDEType.t) (groups : gmap Z SDEGroup.t) :
  (Sorted (λ a b, InvType.TypeID a < InvType.TypeID b) (transformTypes types)
   ∧ length (transformTypes types) = size types
   ∧ ∀ t, t ∈ transformTypes types ↔
          ∃ typeID sdeType, types !! typeID = Some sdeType
                            ∧ t = invType_of typeID sdeType)
  ∧ (Sorted (λ a b, InvGroup.GroupID a < InvGroup.GroupID b)
            (transformGroups groups)
     ∧ length (transformGroups groups) = size groups
     ∧ ∀ g, g ∈ transformGroups groups ↔
            ∃ groupID sdeGroup, groups !! groupID = Some sdeGroup
                                ∧ g = invGroup_of groupID sdeGroup).
Proof.
  split; split_and!.
  - by apply (from_map_strict invType_of InvType.TypeID).
  - apply (from_map_length invType_of InvType.TypeID).
  - apply (from_map_elem_of invType_of InvType.TypeID).
  - by apply (from_map_strict invGroup_of InvGroup.GroupID).
  - apply (from_map_length invGroup_of InvGroup.GroupID).
  - apply (from_map_elem_of invGroup_of InvGroup.GroupID).
Qed.

(** X6. [Transform] neither drops nor adds a record: the counts that
    [Validate] reports for Transform's output are the sizes of the parsed
    collections. *)
Theorem Transform_keeps_counts (parseResult : ParseResult) :
  ∃ out,
    Transform parseResult = Ok out
    ∧ let v := Validate out in
      ValidationResult.SolarSystems v = len (pr_SolarSystems parseResult)
      ∧ ValidationResult.Regions v = len (pr_Regions parseResult)
      ∧ ValidationResult.Constellations v
        = len (pr_Constellations parseResult)
      ∧ ValidationResult.InvTypes v = Z.of_nat (size (pr_Types parseResult))
      ∧ ValidationResult.InvGroups v = Z.of_nat (size (pr_Groups parseResult))
      ∧ ValidationResult.SystemJumps v = len (pr_SystemJumps parseResult)
      ∧ ValidationResult.WormholeClasses v
        = len (pr_WormholeClasses parseResult).
Proof.
  eexists. split; [reflexivity|].
  cbn [Validate ValidationResult.SolarSystems ValidationResult.Regions
       ValidationResult.Constellations ValidationResult.InvTypes
       ValidationResult.InvGroups ValidationResult.SystemJumps
       ValidationResult.WormholeClasses Universe Regions Constellations
       SolarSystems InvTypes InvGroups WormholeClasses SystemJumps].
  unfold len, transformSolarSystems, sortRegions, sortConstellations,
    sortWormholeClasses, transformSystemJumps, transformTypes,
    transformGroups.
  by rewrite !Slice_length, !length_fmap, !length_map_to_list.
Qed.

(** X7. When the system IDs are unique, every endpoint of an output edge
    of [transformSystemJumps] that is the ID of a system carries that
    system's region and constellation. *)
Theorem transformSystemJumps_resolves_unique
    (jumps : list SystemJump.t) (systems : list SolarSystem.t) :
  NoDup (SolarSystem.SolarSystemID <$> systems) →
  ∀ e s, e ∈ transformSystemJumps jumps systems → s ∈ systems →
    (SolarSystem.SolarSystemID s = SystemJump.FromSolarSystemID e →
       SystemJump.FromRegionID e = SolarSystem.RegionID s
       ∧ SystemJump.FromConstellationID e = SolarSystem.ConstellationID s)
    ∧ (SolarSystem.SolarSystemID s = SystemJump.ToSolarSystemID e →
       SystemJump.ToRegionID e = SolarSystem.RegionID s
       ∧ SystemJump.ToConstellationID e = SolarSystem.ConstellationID s).
Proof.
  intros Hnd e s He Hs. unfold transformSystemJumps in He.
  apply elem_of_Slice, list_elem_of_fmap in He as (j & -> & _).
  pose proof (systemLookup_NoDup systems s Hnd Hs) as Hl.
  unfold enrich. cbn. split; intros <-; by rewrite Hl.
Qed.

Lemma transformSystemJumps_resolves_unique_witness :
  (SolarSystem.SolarSystemID sample.jita = 30000142 →
     10000002 = SolarSystem.RegionID sample.jita
     ∧ 20000020 = SolarSystem.ConstellationID sample.jita)
  ∧ (SolarSystem.SolarSystemID sample.jita = 30000144 →
     10000002 = SolarSystem.RegionID sample.jita
     ∧ 20000020 = SolarSystem.ConstellationID sample.jita).
Proof.
  apply (transformSystemJumps_resolves_unique
           [sample.jump 30000142 30000144] [sample.jita; sample.perimeter]
           ltac:(apply NoDup_cons; split;
                   [rewrite list_elem_of_singleton; discriminate
                   |apply NoDup_singleton])
           (SystemJump.mk 10000002 20000020 30000142 30000144
                          20000020 10000002)
           sample.jita).
  - vm_compute. left.
  - left.
Defined.


(** X9. Every hard error of [Validate] comes with a warning: an empty
    foundational collection is also below its minimum and is reported
    twice, as an error and as a warning with the count 0; the result has
    at least as many warnings as errors, at most five warnings and at
    most three errors. *)
Theorem Validate_errors_have_warnings (data : ConvertedData) :
  let v := Validate data in
  (length (ValidationResult.Errors v) ≤ length (ValidationResult.Warnings v))%nat
  ∧ (length (ValidationResult.Warnings v) ≤ 5)%nat
  ∧ (length (ValidationResult.Errors v) ≤ 3)%nat
  ∧ (SolarSystems (Universe data) = [] →
     "No solar systems found" ∈ ValidationResult.Errors v
     ∧ "Solar system count (0) is below expected minimum (8000)"
       ∈ ValidationResult.Warnings v)
  ∧ (Regions (Universe data) = [] →
     "No regions found" ∈ ValidationResult.Errors v
     ∧ "Region count (0) is below expected minimum (100)"
       ∈ ValidationResult.Warnings v)
  ∧ (Constellations (Universe data) = [] →
     "No constellations found" ∈ ValidationResult.Errors v
     ∧ "Constellation count (0) is below expected minimum (1000)"
       ∈ ValidationResult.Warnings v).
Proof.
  cbn [Validate ValidationResult.Errors ValidationResult.Warnings].
  unfold append_if, minSolarSystems, minRegions, minConstellations.
  split_and!.
  1-3: destruct (Z.eqb_spec (len (SolarSystems (Universe data))) 0) as [Hs|],
    (Z.eqb_spec (len (Regions (Universe data))) 0) as [Hr|],
    (Z.eqb_spec (len (Constellations (Universe data))) 0) as [Hc|];
    rewrite ?Hs, ?Hr, ?Hc;
    change (0 <? 8000) with true; change (0 <? 100) with true;
    change (0 <? 1000) with true; cbv iota;
    repeat match goal with
           | |- context [if ?b then _ else _] => destruct b
           end;
    cbn; rewrite ?length_app; cbn; lia.
  - intros ->. change (len []) with 0.
    change (0 <? 8000) with true. change (0 =? 0) with true. cbv iota.
    split; repeat match goal with
                  | |- context [if ?b then _ else _] => destruct b
                  end; set_solver.
  - intros ->. change (len []) with 0.
    change (0 <? 100) with true. change (0 =? 0) with true. cbv iota.
    split; repeat match goal with
                  | |- context [if ?b then _ else _] => destruct b
                  end; set_solver.
  - intros ->. change (len []) with 0.
    change (0 <? 1000) with true. change (0 =? 0) with true. cbv iota.
    split; repeat match goal with
                  | |- context [if ?b then _ else _] => destruct b
                  end; set_solver.
Qed.

(** ** parser: stargates *)

Lemma Sorted_refine {A K} (R R' : A → A → Prop) (k : A → K) l :
  (∀ a b, R a b → k a ≠ k b → R' a b) →
  Sorted R l → NoDup (k <$> l) → Sorted R' l.
Proof.
  intros HR. induction 1 as [|x l Hs IH Hhd]; [constructor|].
  rewrite fmap_cons. intros [Hnin Hnd]%NoDup_cons.
  constructor; [auto|].
  destruct Hhd as [|y l Hxy]; constructor.
  apply HR; [done|]. intros Heq. apply Hnin. rewrite fmap_cons, Heq. by left.
Qed.

Lemma jump_le_lt a b :
  jump_le a b → SystemJump.endpoints a ≠ SystemJump.endpoints b → jump_lt a b.
Proof.
  unfold jump_le, jump_lt, SystemJump.endpoints. intros [?|[? ?]] Hne.
  - by left.
  - right. split; [done|].
    destruct (decide (SystemJump.ToSolarSystemID a
                      = SystemJump.ToSolarSystemID b)) as [Heq|]; [|lia].
    destruct Hne. congruence.
Qed.

Lemma jumpSet_of_size rawStargates :
  (size (jumpSet_of rawStargates) ≤ size rawStargates)%nat.
Proof.
  unfold jumpSet_of.
  apply (map_fold_weak_ind
           (λ (r : gset (Z * Z)) (m : gmap Z SDEMapStargate.t),
              (size r ≤ size m)%nat)).
  - by rewrite size_empty, map_size_empty.
  - intros i x m r Hi IH. rewrite map_size_insert_None by done.
    destruct (gate_pair x) as [p|]; [|lia].
    rewrite size_union_alt, size_singleton.
    assert (size (r ∖ {[p]}) ≤ size r)%nat
      by (by apply subseteq_size, subseteq_difference_l).
    lia.
Qed.

Lemma endpoints_of_pairs (l : list (Z * Z)) :
  SystemJump.endpoints <$> ((λ p : Z * Z, SystemJump.mk 0 0 p.1 p.2 0 0) <$> l)
  = l.
Proof. induction l as [|[] l IH]; [done|]. rewrite !fmap_cons, IH. done. Qed.

Lemma endpoints_enrich lookup (l : list SystemJump.t) :
  SystemJump.endpoints <$> (enrich lookup <$> l) = SystemJump.endpoints <$> l.
Proof. induction l as [|j l IH]; [done|]. rewrite !fmap_cons, IH. done. Qed.

(** X10. The jumps that [ParseStargates] returns are in strictly ascending
    order of (from, to), so no pair occurs twice; there are at most as
    many jumps as gate records; a gate that leads back to its own system
    is kept as the pair (A, A); and a file that does not parse gives the
    wrapped error and no jumps. *)
Theorem ParseStargates_strictly_sorted (rawStargates : gmap Z SDEMapStargate.t) :
  (∃ jumps,
     ParseStargates (Ok rawStargates) = Ok jumps
     ∧ Sorted jump_lt jumps
     ∧ (length jumps ≤ size rawStargates)%nat
     ∧ ∀ id data, rawStargates !! id = Some data →
         gate_from data ≠ 0 → gate_to data = gate_from data →
         SystemJump.mk 0 0 (gate_from data) (gate_from data) 0 0 ∈ jumps)
  ∧ ∀ err, ParseStargates (Err err)
           = Err ("failed to parse stargates file: " +:+ err).
Proof.
  split; [|done]. eexists. split; [reflexivity|]. split_and!.
  - apply (Sorted_refine jump_le jump_lt SystemJump.endpoints);
      [apply jump_le_lt|apply Slice_Sorted_jumps|].
    rewrite Slice_Permutation, endpoints_of_pairs. apply NoDup_elements.
  - rewrite Slice_length, length_fmap.
    change (length (elements (jumpSet_of rawStargates)))
      with (size (jumpSet_of rawStargates)).
    apply jumpSet_of_size.
  - intros id data Hl Hf Ht. apply elem_of_Slice, list_elem_of_fmap.
    exists (gate_from data, gate_from data). split; [done|].
    apply elem_of_elements, elem_of_jumpSet_of. exists id, data.
    split; [done|]. apply gate_pair_Some. rewrite Ht.
    split_and!; [done|done|]. f_equal; lia.
Qed.

(** X11. Parsing and enrichment compose: the jumps that
    [transformSystemJumps] makes of the output of [ParseStargates] are
    still one per connected pair, lower ID first, in strictly ascending
    order of (from, to). *)
Theorem parsed_jumps_stay_canonical
    (rawStargates : gmap Z SDEMapStargate.t) (systems : list SolarSystem.t) :
  ∃ jumps,
    ParseStargates (Ok rawStargates) = Ok jumps
    ∧ let out := transformSystemJumps jumps systems in
      Sorted jump_lt out
      ∧ NoDup (SystemJump.endpoints <$> out)
      ∧ Forall (λ e, SystemJump.FromSolarSystemID e
                     ≤ SystemJump.ToSolarSystemID e) out
      ∧ SystemJump.endpoints <$> out ≡ₚ elements (jumpSet_of rawStargates).
Proof.
  eexists. split; [reflexivity|]. cbn zeta.
  set (jumps := sort.Slice jump_less _).
  assert (SystemJump.endpoints <$> transformSystemJumps jumps systems
          ≡ₚ elements (jumpSet_of rawStargates)) as Hperm.
  { unfold transformSystemJumps.
    rewrite Slice_Permutation, endpoints_enrich.
    unfold jumps. by rewrite Slice_Permutation, endpoints_of_pairs. }
  assert (NoDup (SystemJump.endpoints <$> transformSystemJumps jumps systems))
    as Hnd by (rewrite Hperm; apply NoDup_elements).
  split_and!; [|done| |done].
  - apply (Sorted_refine jump_le jump_lt SystemJump.endpoints);
      [apply jump_le_lt|apply Slice_Sorted_jumps|done].
  - apply Forall_forall. intros e He.
    assert (SystemJump.endpoints e ∈ elements (jumpSet_of rawStargates))
      as Hin by (rewrite <- Hperm; by apply list_elem_of_fmap_2).
    apply elem_of_elements, elem_of_jumpSet_of in Hin
      as (id & data & _ & (_ & _ & Hp)%gate_pair_Some).
    unfold SystemJump.endpoints in Hp. injection Hp as -> ->. lia.
Qed.

(** ** parser: regions, constellations, solar systems *)

Lemma name_or_default_nonempty kind id names :
  name_or_default kind id names ≠ "".
Proof.
  unfold name_or_default. case_decide as Hn; [|done].
  by destruct kind.
Qed.

Lemma Int64Ptr_nonzero v : Int64Ptr v ≠ Some 0.
Proof. unfold Int64Ptr. case_decide; congruence. Qed.

(** X12. [ParseRegions], [ParseConstellations] and [ParseSolarSystems]
    return one record per key of the parsed file, with the key as its ID,
    in strictly ascending order of the ID; no record has an empty name
    (a missing English name is replaced by the kind and the ID) and a
    faction ID of 0 in the file becomes an absent faction ID. *)
Theorem parsers_one_record_per_key
    (rawRegions : gmap Z SDEMapRegion.t)
    (rawConstellations : gmap Z SDEMapConstellation.t)
    (rawSystems : gmap Z SDEMapSolarSystem.t) :
  (∃ regions,
     ParseRegions (Ok rawRegions) = Ok regions
     ∧ Sorted (λ a b, Region.RegionID a < Region.RegionID b) regions
     ∧ length regions = size rawRegions
     ∧ (∀ r, r ∈ regions ↔
             ∃ id data, rawRegions !! id = Some data ∧ r = region_of id data)
     ∧ Forall (λ r, Region.RegionName r ≠ ""
                    ∧ Region.FactionID r ≠ Some 0) regions)
  ∧ (∃ constellations,
       ParseConstellations (Ok rawConstellations) = Ok constellations
       ∧ Sorted (λ a b, Constellation.ConstellationID a
                        < Constellation.ConstellationID b) constellations
       ∧ length constellations = size rawConstellations
       ∧ (∀ c, c ∈ constellations ↔
               ∃ id data, rawConstellations !! id = Some data
                          ∧ c = constellation_of id data)
       ∧ Forall (λ c, Constellation.ConstellationName c ≠ ""
                      ∧ Constellation.FactionID c ≠ Some 0) constellations)
  ∧ (∃ systems,
       ParseSolarSystems (Ok rawSystems) = Ok systems
       ∧ Sorted (λ a b, SolarSystem.SolarSystemID a
                        < SolarSystem.SolarSystemID b) systems
       ∧ length systems = size rawSystems
       ∧ (∀ s, s ∈ systems ↔
               ∃ id data, rawSystems !! id = Some data ∧ s = system_of id data)
       ∧ Forall (λ s, SolarSystem.SolarSystemName s ≠ ""
                      ∧ SolarSystem.FactionID s ≠ Some 0
                      ∧ SolarSystem.SunTypeID s ≠ Some 0) systems).
Proof.
  split_and!; (eexists; split; [reflexivity|]); split_and!.
  - by apply (from_map_strict region_of Region.RegionID).
  - apply (from_map_length region_of Region.RegionID).
  - apply (from_map_elem_of region_of Region.RegionID).
  - apply Forall_forall. intros r Hr.
    apply (from_map_elem_of region_of Region.RegionID)
      in Hr as (id & data & _ & ->). cbn.
    split; [apply name_or_default_nonempty|apply Int64Ptr_nonzero].
  - by apply (from_map_strict constellation_of Constellation.ConstellationID).
  - apply (from_map_length constellation_of Constellation.ConstellationID).
  - apply (from_map_elem_of constellation_of Constellation.ConstellationID).
  - apply Forall_forall. intros c Hc.
    apply (from_map_elem_of constellation_of Constellation.ConstellationID)
      in Hc as (id & data & _ & ->). cbn.
    split; [apply name_or_default_nonempty|apply Int64Ptr_nonzero].
  - by apply (from_map_strict system_of SolarSystem.SolarSystemID).
  - apply (from_map_length system_of SolarSystem.SolarSystemID).
  - apply (from_map_elem_of system_of SolarSystem.SolarSystemID).
  - apply Forall_forall. intros s Hs.
    apply (from_map_elem_of system_of SolarSystem.SolarSystemID)
      in Hs as (id & data & _ & ->). cbn.
    split_and!; [apply name_or_default_nonempty|apply Int64Ptr_nonzero..].
Qed.

(** ** parser: wormhole classes *)

Lemma omap_keys_NoDup {V A} (g : Z * V → option A) (key : A → Z)
    (l : list (Z * V)) :
  (∀ kv a, g kv = Some a → key a = kv.1) →
  NoDup l.*1 → NoDup (key <$> omap g l).
Proof.
  intros Hg. induction l as [|kv l IH]; [constructor|].
  rewrite fmap_cons. intros [Hnin Hnd]%NoDup_cons. cbn [omap list_omap].
  destruct (g kv) as [a|] eqn:Ha; [|auto].
  rewrite fmap_cons. apply NoDup_cons. split; [|auto].
  intros (a' & Hk & (kv' & Hin & Ha')%list_elem_of_omap)%list_elem_of_fmap.
  apply Hnin. apply list_elem_of_fmap. exists kv'. split; [|done].
  rewrite <- (Hg _ _ Ha), <- (Hg _ _ Ha'). done.
Qed.

(** X13. [ExtractWormholeClasses] returns exactly the systems of the file
    whose wormhole class ID is not zero, each once with its class, in
    strictly ascending order of the location ID; it returns nothing when
    the file does not parse. *)
Theorem ExtractWormholeClasses_nonzero_only
    (rawSystems : gmap Z SDEMapSolarSystem.t) (systems : list SolarSystem.t) :
  let out := ExtractWormholeClasses (Ok rawSystems) systems in
  Sorted (λ a b, WormholeClassLocation.LocationID a
                 < WormholeClassLocation.LocationID b) out
  ∧ (∀ w, w ∈ out ↔
          ∃ data, rawSystems !! WormholeClassLocation.LocationID w = Some data
                  ∧ SDEMapSolarSystem.WormholeClassID data ≠ 0
                  ∧ WormholeClassLocation.WormholeClassID w
                    = SDEMapSolarSystem.WormholeClassID data)
  ∧ (length out ≤ size rawSystems)%nat
  ∧ ∀ err, ExtractWormholeClasses (Err err) systems = [].
Proof.
  cbn zeta. unfold ExtractWormholeClasses.
  set (g := λ kv : Z * SDEMapSolarSystem.t,
              if decide (SDEMapSolarSystem.WormholeClassID kv.2 ≠ 0)
              then Some (WormholeClassLocation.mk kv.1
                           (SDEMapSolarSystem.WormholeClassID kv.2))
              else None).
  split_and!; [| | |done].
  - apply Sorted_strict; [apply Slice_Sorted_key|].
    rewrite Slice_Permutation.
    apply omap_keys_NoDup; [|apply NoDup_fst_map_to_list].
    intros kv a. unfold g. case_decide; [|done]. by intros [= <-].
  - intros w. rewrite elem_of_Slice, list_elem_of_omap. split.
    + intros ([k data] & Hin%elem_of_map_to_list & Hg). unfold g in Hg.
      cbn in Hg. case_decide; [|done]. injection Hg as <-. by exists data.
    + intros (data & Hl & Hne & Hw). exists (WormholeClassLocation.LocationID w, data).
      split; [by apply elem_of_map_to_list|]. unfold g. cbn.
      rewrite decide_True by done. destruct w. cbn in *. by rewrite Hw.
  - rewrite Slice_length, <- length_map_to_list.
    generalize (map_to_list rawSystems). intros l.
    induction l as [|kv l IH]; [done|]. cbn [omap list_omap].
    destruct (g kv); cbn [length]; lia.
Qed.

(** ** models: CSV rows *)

Lemma FormatInt_does_not_start_with_N v s : strconv.FormatInt v ≠ "N" +:+ s.
Proof.
  unfold strconv.FormatInt, pretty, pretty_Z. destruct v as [|p|p]; [done| |done].
  unfold pretty, pretty_positive, pretty, pretty_N.
  rewrite decide_False by done.
  assert (∀ x t, t ≠ "N" +:+ s → pretty_N_go x t ≠ "N" +:+ s) as Hgo.
  { intros x. induction (N.lt_wf_0 x) as [x _ IH]; intros t Ht.
    assert (x = 0 ∨ 0 < x)%N as [->|?] by lia.
    - by rewrite pretty_N_go_0.
    - rewrite pretty_N_go_step by done. apply IH.
      { by apply N.div_lt. }
      unfold pretty_N_char. by repeat case_match. }
  by apply Hgo.
Qed.

Lemma FormatNullableInt64_inj (v w : option Z) :
  FormatNullableInt64 v = FormatNullableInt64 w → v = w.
Proof.
  destruct v as [x|], w as [y|]; cbn [FormatNullableInt64]; intros Heq.
  - f_equal. by apply (inj pretty).
  - by destruct (FormatInt_does_not_start_with_N x "one").
  - by destruct (FormatInt_does_not_start_with_N y "one").
  - done.
Qed.

Lemma FormatBool_inj (b c : bool) : FormatBool b = FormatBool c → b = c.
Proof. by destruct b, c. Qed.

(** X14. The CSV rendering of an optional ID is unambiguous: the absent
    ID and every number have different texts, and different numbers have
    different texts, so the column can be read back. *)
Theorem FormatNullableInt64_injective (v w : option Z) :
  FormatNullableInt64 v = FormatNullableInt64 w → v = w.
Proof.
  destruct v as [x|], w as [y|]; cbn [FormatNullableInt64]; intros Heq.
  - f_equal. by apply (inj pretty).
  - by destruct (FormatInt_does_not_start_with_N x "one").
  - by destruct (FormatInt_does_not_start_with_N y "one").
  - done.
Qed.

Lemma FormatNullableInt64_injective_witness :
  Some 500001 = Some 500001.
Proof.
  apply FormatNullableInt64_injective. reflexivity.
Defined.

(** X15. The CSV rows of jumps, of wormhole class locations and of groups
    lose nothing: two records with the same row are the same record; the
    rows have six, two and nine fields. *)
Theorem ToCSVRow_injective :
  (∀ j1 j2, SystemJump_methods.ToCSVRow j1 = SystemJump_methods.ToCSVRow j2 →
            j1 = j2)
  ∧ (∀ w1 w2, WormholeClassLocation_methods.ToCSVRow w1
              = WormholeClassLocation_methods.ToCSVRow w2 → w1 = w2)
  ∧ (∀ g1 g2, InvGroup_methods.ToCSVRow g1 = InvGroup_methods.ToCSVRow g2 →
              g1 = g2)
  ∧ (∀ j, length (SystemJump_methods.ToCSVRow j) = 6%nat)
  ∧ (∀ w, length (WormholeClassLocation_methods.ToCSVRow w) = 2%nat)
  ∧ (∀ g, length (InvGroup_methods.ToCSVRow g) = 9%nat).
Proof.
  split_and!; [| | |done|done|done].
  - intros [] [] [= H1 H2 H3 H4 H5 H6].
    apply (inj pretty) in H1, H2, H3, H4, H5, H6. by subst.
  - intros [] [] [= H1 H2]. apply (inj pretty) in H1, H2. by subst.
  - intros [] [] [= H1 H2 H3 H4 H5 H6 H7 H8 H9].
    apply (inj pretty) in H1, H2. apply FormatNullableInt64_inj in H4.
    apply FormatBool_inj in H5, H6, H7, H8, H9. by subst.
Qed.

Lemma ToCSVRow_injective_witness :
  sample.jump 30000142 30000144 = sample.jump 30000142 30000144.
Proof.
  apply (proj1 ToCSVRow_injective). reflexivity.
Defined.

(** ** security.go on the values with two decimals *)

(** X16. On every security value with two decimals, -1.00 to 1.00:
    [GetTrueSecurity] shows the tenth that the rule of section 4.1 gives
    in decimal arithmetic, with the single exception of -0.55, which
    binary rounding turns into -0.6 instead of -0.5; applying
    [GetTrueSecurity] to its own result changes nothing; [RoundSecurity]
    rounds to the nearest tenth, halves away from zero; and
    [TruncateToTwoDigits] returns the value itself or, where the product
    by 100 falls just below an integer, one hundredth less. *)
Theorem security_on_two_decimals (n : Z) :
  -100 ≤ n ≤ 100 →
  let raw := hundredths n in
  let shown := if decide (n = -55) then -6 else decimal_display n in
  let cut := if decide (n ∈ [-56; -55; -28; -14; -7; 29; 57; 58])
             then n - 1 else n in
  PrimFloat.eqb (GetTrueSecurity raw) (tenths shown) = true
  ∧ PrimFloat.eqb (GetTrueSecurity (GetTrueSecurity raw))
                  (GetTrueSecurity raw) = true
  ∧ PrimFloat.eqb (RoundSecurity raw) (tenths (decimal_round n)) = true
  ∧ PrimFloat.eqb (TruncateToTwoDigits raw) (hundredths cut) = true.
Proof.
  intros Hn.
  assert (n ∈ seqZ (-100) 201) as Hin by (apply elem_of_seqZ; lia).
  clear Hn. revert n Hin. apply Forall_forall.
  cbv zeta.
  match goal with |- ?G => apply (@bool_decide_unpack G _) end.
  vm_compute. exact I.
Qed.

Lemma security_on_two_decimals_witness :
  let raw := hundredths 29 in
  let shown := if decide (29 = -55) then -6 else decimal_display 29 in
  let cut := if decide (29 ∈ [-56; -55; -28; -14; -7; 29; 57; 58])
             then 29 - 1 else 29 in
  PrimFloat.eqb (GetTrueSecurity raw) (tenths shown) = true
  ∧ PrimFloat.eqb (GetTrueSecurity (GetTrueSecurity raw))
                  (GetTrueSecurity raw) = true
  ∧ PrimFloat.eqb (RoundSecurity raw) (tenths (decimal_round 29)) = true
  ∧ PrimFloat.eqb (TruncateToTwoDigits raw) (hundredths cut) = true.
Proof.
  apply (security_on_two_decimals 29). lia.
Defined.
